(** * ArgumentParser (argparse.hpp): a shallow embedding and its properties

    The C++ class [ArgumentParser] keeps a registry of declared arguments
    ([arguments_]), one type-erased value slot per argument ([variables_]),
    an index from names to positions ([index_]) and a few configuration
    fields.  Every member function is embedded as a computation over the
    parser object: it takes the object, and gives a result (a value, or the
    way the call failed) together with the object as the call leaves it. *)

From Stdlib Require Import ZArith String Ascii List Bool Lia.
From stdpp Require Import base gmap strings list.

Local Open Scope Z_scope.

(** ** Machine integers *)

(** [size_t] is a 64-bit unsigned integer: a [Z] taken modulo [2^64]. *)
Definition to_size_t (z : Z) : Z := z mod 2 ^ 64.

(** A [size_t] converted to the iterator's [difference_type] (two's
    complement, 64 bits), as in [argv.end() - nfinal]. *)
Definition to_ptrdiff_t (z : Z) : Z := if z <? 2 ^ 63 then z else z - 2 ^ 64.

(** [char] to [size_t], as in [fixed_nargs = nargs]: with a signed [char] the
    codes from 128 on are negative and wrap around. *)
Definition char_to_size_t (c : ascii) : Z :=
  let n := Z.of_nat (nat_of_ascii c) in
  to_size_t (if n <? 128 then n else n - 256).

(** ** Strings *)

Definition size (s : string) : nat := String.length s.
Definition empty_string (s : string) : bool :=
  match s with EmptyString => true | String _ _ => false end.

(** [std::string(n, c)] *)
Fixpoint fill (n : nat) (c : ascii) : string :=
  match n with O => EmptyString | S n' => String c (fill n' c) end.

(** [name.substr(begin)] for [begin <= name.size()] *)
Definition substr (s : string) (begin : nat) : string :=
  String.substring begin (size s - begin) s.

(** [name[i] == c] with [i < name.size()] *)
Definition char_is (s : string) (i : nat) (c : ascii) : bool :=
  match String.get i s with
  | Some d => Ascii.eqb d c
  | None => false
  end.

Definition delimit (nm : string) : string :=
  fill (Nat.min (size nm) 2) "-"%char +:+ nm.

Definition strip (nm : string) : string :=
  let begin := 0%nat in
  let begin := (begin + if (0 <? size nm)%nat then Nat.b2n (char_is nm 0 "-"%char) else 0)%nat in
  let begin := (begin + if (3 <? size nm)%nat then Nat.b2n (char_is nm 1 "-"%char) else 0)%nat in
  substr nm begin.

(** [::toupper] in the C locale *)
Definition toupper (c : ascii) : ascii :=
  let n := nat_of_ascii c in
  if ((97 <=? n) && (n <=? 122))%nat then ascii_of_nat (n - 32) else c.

Fixpoint upper (s : string) : string :=
  match s with
  | EmptyString => EmptyString
  | String c r => String (toupper c) (upper r)
  end.

Fixpoint contains_char (c : ascii) (s : string) : bool :=
  match s with
  | EmptyString => false
  | String d r => Ascii.eqb d c || contains_char c r
  end.

Definition dquote : ascii := "034"%char.
Definition backslash : ascii := "092"%char.

Definition escape (s : string) : string :=
  if contains_char " "%char s
  then String dquote EmptyString +:+ s +:+ String dquote EmptyString
  else s.

(** [s.substr(s.find_last_of(separators) + 1, s.length())], the separators
    being the slash and the backslash: what follows the last of them, the
    whole string when there is none ([npos + 1] is 0). *)
Fixpoint after_last_separator (s : string) : string :=
  match s with
  | EmptyString => EmptyString
  | String c r =>
      if contains_char "/"%char r || contains_char backslash r
      then after_last_separator r
      else if Ascii.eqb c "/"%char || Ascii.eqb c backslash then r else s
  end.

(** ** Arguments *)

(** The union of [fixed_nargs] and [variable_nargs], with the flag [fixed]
    that says which member is live. *)
Inductive Nargs :=
| fixed_nargs (n : Z)
| variable_nargs (c : ascii).

Record Argument := mkArgument {
  short_name : string;
  name : string;
  required : bool;
  default_value : string;
  help : string;
  nargs : Nargs
}.

Definition fixed (a : Argument) : bool :=
  match nargs a with fixed_nargs _ => true | variable_nargs _ => false end.

(** [Argument()] *)
Definition Argument_default : Argument :=
  mkArgument "" "" false "" "" (fixed_nargs 0).

(** [Argument(_short_name, _name, _required, nargs, _default, _help)] *)
Definition Argument_new (_short_name _name : string) (_required : bool)
    (n : ascii) (_default _help : string) : Argument :=
  mkArgument _short_name _name _required _default _help
    (if Ascii.eqb n "+"%char || Ascii.eqb n "*"%char
     then variable_nargs n
     else fixed_nargs (char_to_size_t n)).

Definition canonicalName (a : Argument) : string :=
  if empty_string (name a) then short_name a else name a.

Fixpoint repeat_uname (n : nat) (uname : string) : string :=
  match n with
  | O => ""
  | S n' => " " +:+ uname +:+ repeat_uname n' uname
  end.

Definition toString (a : Argument) (named : bool) : string :=
  let uname := if empty_string (name a) then upper (strip (short_name a))
               else upper (strip (name a)) in
  (if named && negb (required a) then "[" else "") +:+
  (if named then canonicalName a else "") +:+
  (match nargs a with
   | fixed_nargs k =>
       let N := Z.min 3 k in
       repeat_uname (Z.to_nat N) uname +:+ (if N <? k then " ..." else "")
   | variable_nargs c =>
       " " +:+ (if Ascii.eqb c "*"%char then "[" else "") +:+ uname +:+ " " +:+
       (if Ascii.eqb c "+"%char then "[" else "") +:+ uname +:+ "...]"
   end) +:+
  (if named && negb (required a) then "]" else "").

(** ** Value slots *)

(** What an [Any] of [variables_] holds: a [Holder<std::string>] or a
    [Holder<std::vector<std::string>>]. *)
Inductive Any :=
| AnyString (held_ : string)
| AnyVector (held_ : list string).

(** ** The parser object *)

Record ArgumentParser := mkParser {
  index_ : gmap string Z;
  ignore_first_ : bool;
  use_exceptions_ : bool;
  required_ : Z;
  app_name_ : string;
  final_name_ : string;
  arguments_ : list Argument;
  variables_ : list Any
}.

(** [ArgumentParser()] *)
Definition ArgumentParser_new : ArgumentParser :=
  mkParser ∅ true false 0 "" "" [] [].

(** ** Failures *)

(** The kind of an [argumentError], named after the message of its call
    site: "argument names must be non-empty" and "invalid argument ..." are
    InvalidArgumentName, "attempt to pass too many inputs to ..." is
    TooManyInputs, "encountered argument ... when expecting more inputs to
    ..." is IncompleteArgument, "encountered required argument ..." is
    UnexpectedRequiredArgument, "too few inputs passed to argument ..." is
    TooFewRemainingInputs, "encountered argument specifier ..." is
    UnexpectedArgumentSpecifier and "too few required arguments passed to
    ..." is MissingRequiredArguments. *)
Inductive ErrorKind :=
| InvalidArgumentName
| TooManyInputs
| IncompleteArgument
| UnexpectedRequiredArgument
| TooFewRemainingInputs
| UnexpectedArgumentSpecifier
| MissingRequiredArguments.

Inductive Failure :=
| invalid_argument (k : ErrorKind) (msg : string)
    (* thrown by [argumentError] when [use_exceptions_] *)
| exit_minus_5 (k : ErrorKind) (cerr : string)
    (* [argumentError] otherwise: the text sent to [std::cerr], then [exit(-5)] *)
| out_of_range (msg : string)
    (* thrown by [retrieve]: "Key not found" is UnknownArgument, "Value not found" is NoValue *)
| bad_cast
    (* thrown by [Any::castTo]: TypeMismatch *)
| undefined_behaviour.
    (* an element read beyond a vector's size *)

Inductive Result (A : Type) :=
| Ok (a : A)
| Fail (f : Failure).
Arguments Ok {A} a.
Arguments Fail {A} f.

(** A member function: from the object to its result and the object after. *)
Definition M (A : Type) : Type := ArgumentParser -> Result A * ArgumentParser.

Definition ret {A} (a : A) : M A := fun st => (Ok a, st).
Definition raise {A} (f : Failure) : M A := fun st => (Fail f, st).
Definition bind {A B} (m : M A) (k : A -> M B) : M B :=
  fun st => match m st with
            | (Ok a, st') => k a st'
            | (Fail f, st') => (Fail f, st')
            end.
Definition this : M ArgumentParser := fun st => (Ok st, st).
Definition lift {A} (r : Result A) : M A := fun st => (r, st).
Definition when (b : bool) (m : M unit) : M unit := if b then m else ret tt.

Notation "x <- m ;; k" := (bind m (fun x => k))
  (at level 100, m at next level, right associativity).
Notation "m ;;; k" := (bind m (fun _ => k))
  (at level 100, right associativity).

(** ** Element access *)

(** [index_.count(k)] *)
Definition index_count (k : string) : M Z :=
  fun st => (Ok (match index_ st !! k with Some _ => 1 | None => 0 end), st).

(** [index_[k]]: [operator[]] of the map enters [k] with the value 0 when
    the key is absent. *)
Definition index_at (k : string) : M Z :=
  fun st => match index_ st !! k with
            | Some n => (Ok n, st)
            | None =>
                (Ok 0, mkParser (<[k := 0]> (index_ st)) (ignore_first_ st)
                         (use_exceptions_ st) (required_ st) (app_name_ st)
                         (final_name_ st) (arguments_ st) (variables_ st))
            end.

(** [arguments_[n]] and [variables_[n]]: defined below the vector's size. *)
Definition arguments_at (n : Z) : M Argument :=
  fun st => match arguments_ st !! Z.to_nat n with
            | Some a => (Ok a, st)
            | None => (Fail undefined_behaviour, st)
            end.

Definition variables_at (n : Z) : M Any :=
  fun st => match variables_ st !! Z.to_nat n with
            | Some v => (Ok v, st)
            | None => (Fail undefined_behaviour, st)
            end.

(** [Any::castTo<ValueType>()] gives the held value BY VALUE when the held
    type is [ValueType]; for another [ValueType] the general overload throws
    [std::bad_cast].  (The overloads for [int] and [double] end without a
    return statement and are not embedded.) *)
Definition castTo_string (v : Any) : Result string :=
  match v with
  | AnyString s => Ok s
  | AnyVector _ => Fail bad_cast
  end.

Definition castTo_vector (v : Any) : Result (list string) :=
  match v with
  | AnyVector l => Ok l
  | AnyString _ => Fail bad_cast
  end.

(** The type asked of [retrieve<T>]. *)
Inductive ValueType := T_string | T_vector | T_other.

Definition castTo (T : ValueType) (v : Any) : Result Any :=
  match T, v with
  | T_string, AnyString s => Ok (AnyString s)
  | T_vector, AnyVector l => Ok (AnyVector l)
  | _, _ => Fail bad_cast
  end.

(** ** usage *)

Definition newline : string := String "010"%char EmptyString.

(** The body of the two loops over [arguments_]: [skip_required] is false in
    the first (which skips the arguments that are not required) and true in
    the second. The pair is [help.str()] and [linelength]. *)
Definition usage_argument (final_name : string) (indent : nat) (skip_required : bool)
    (acc : string * nat) (arg : Argument) : string * nat :=
  let '(help, linelength) := acc in
  if Bool.eqb (required arg) skip_required then acc
  else if String.eqb (name arg) final_name then acc
  else
    let help := help +:+ " " in
    let argstr := toString arg true in
    if (80 <? size argstr + linelength)%nat
    then (help +:+ newline +:+ fill indent " "%char +:+ argstr, 0%nat)
    else (help +:+ argstr, (linelength + size argstr)%nat).

Definition usage_final (indent : nat) (acc : string * nat) (arg : Argument) : string * nat :=
  let '(help, linelength) := acc in
  let argstr := toString arg false in
  if (80 <? size argstr + linelength)%nat
  then (help +:+ newline +:+ fill indent " "%char +:+ argstr, 0%nat)
  else (help +:+ argstr, (linelength + size argstr)%nat).

Definition usage : M string :=
  st <- this ;;
  let help := "Usage: " +:+ escape (app_name_ st) in
  let indent := size help in
  let acc := (help, 0%nat) in
  let acc := foldl (usage_argument (final_name_ st) indent false) acc (arguments_ st) in
  let acc := foldl (usage_argument (final_name_ st) indent true) acc (arguments_ st) in
  if empty_string (final_name_ st) then ret (fst acc)
  else
    i <- index_at (final_name_ st) ;;
    arg <- arguments_at i ;;
    ret (fst (usage_final indent acc arg)).

(** ** Error handling *)

Definition argumentError (k : ErrorKind) (msg : string) (show_usage : bool) : M unit :=
  st <- this ;;
  if use_exceptions_ st then raise (invalid_argument k msg)
  else
    let cerr := "ArgumentParser error: " +:+ msg +:+ newline in
    if show_usage
    then u <- usage ;; raise (exit_minus_5 k (cerr +:+ u +:+ newline))
    else raise (exit_minus_5 k cerr).

(** ** Declarations *)

Definition insertArgument (arg : Argument) : M unit :=
  fun st =>
    let N := Z.of_nat (length (arguments_ st)) in
    let arguments := arguments_ st ++ [arg] in
    let variables :=
      variables_ st ++
        [match nargs arg with
         | fixed_nargs n => if n <=? 1 then AnyString (default_value arg) else AnyVector []
         | variable_nargs _ => AnyVector []
         end] in
    let index := index_ st in
    let index := if empty_string (short_name arg) then index else <[short_name arg := N]> index in
    let index := if empty_string (name arg) then index else <[name arg := N]> index in
    let required := if required arg && empty_string (default_value arg)
                    then to_size_t (required_ st + 1) else required_ st in
    (Ok tt, mkParser index (ignore_first_ st) (use_exceptions_ st) required
              (app_name_ st) (final_name_ st) arguments variables).

Definition verify (nm : string) : M string :=
  when (empty_string nm)
    (argumentError InvalidArgumentName "argument names must be non-empty" false) ;;;
  when (((size nm =? 2)%nat && negb (char_is nm 0 "-"%char)) || (size nm =? 3)%nat)
    (argumentError InvalidArgumentName
       ("invalid argument '" +:+ nm +:+ "'. Short names must begin with '-'") false) ;;;
  when ((3 <? size nm)%nat && (negb (char_is nm 0 "-"%char) || negb (char_is nm 1 "-"%char)))
    (argumentError InvalidArgumentName
       ("invalid argument '" +:+ nm +:+ "'. Multi-character names must begin with '--'") false) ;;;
  ret nm.

Definition appName (nm : string) : M unit :=
  fun st => (Ok tt, mkParser (index_ st) (ignore_first_ st) (use_exceptions_ st)
                      (required_ st) nm (final_name_ st) (arguments_ st) (variables_ st)).

(** [addArgument(name, nargs, _default, required, help)]: the default and the
    help text are not handed to the [Argument]. *)
Definition addArgument (nm : string) (n : ascii) (_default : string)
    (req : bool) (_help : string) : M unit :=
  if (2 <? size nm)%nat
  then v <- verify nm ;; insertArgument (Argument_new "" v req n "" "")
  else v <- verify nm ;; insertArgument (Argument_new v "" req n "" "").

(** [addArgument(short_name, name, nargs, _default, required, help)] *)
Definition addArgument2 (short nm : string) (n : ascii) (_default : string)
    (req : bool) (_help : string) : M unit :=
  s <- verify short ;;
  l <- verify nm ;;
  insertArgument (Argument_new s l req n _default _help).

Definition set_final_name (nm : string) : M unit :=
  fun st => (Ok tt, mkParser (index_ st) (ignore_first_ st) (use_exceptions_ st)
                      (required_ st) (app_name_ st) nm (arguments_ st) (variables_ st)).

Definition addFinalArgument (nm : string) (n : ascii) (_default : string)
    (req : bool) (_help : string) : M unit :=
  set_final_name (delimit nm) ;;;
  insertArgument (Argument_new "" (delimit nm) req n "" "").

Definition ignoreFirstArgument (ignore_first : bool) : M unit :=
  fun st => (Ok tt, mkParser (index_ st) ignore_first (use_exceptions_ st)
                      (required_ st) (app_name_ st) (final_name_ st)
                      (arguments_ st) (variables_ st)).

Definition useExceptions (state : bool) : M unit :=
  fun st => (Ok tt, mkParser (index_ st) (ignore_first_ st) state
                      (required_ st) (app_name_ st) (final_name_ st)
                      (arguments_ st) (variables_ st)).

Definition empty : M bool :=
  fun st => (Ok (bool_decide (index_ st = ∅)), st).

Definition clear : M unit :=
  fun st => (Ok tt, mkParser ∅ true (use_exceptions_ st) 0 (app_name_ st)
                      (final_name_ st) [] []).

(** ** Retrieval *)

Definition exists_ (nm : string) : M bool :=
  c <- index_count (delimit nm) ;;
  ret (0 <? c).

Definition count (nm : string) : M Z :=
  c <- index_count (delimit nm) ;;
  if c =? 0 then ret 0
  else
    N <- index_at (delimit nm) ;;
    arg <- arguments_at N ;;
    var <- variables_at N ;;
    if fixed arg
    then s <- lift (castTo_string var) ;; ret (Z.b2z (negb (empty_string s)))
    else l <- lift (castTo_vector var) ;; ret (Z.of_nat (length l)).

Definition retrieve (T : ValueType) (nm : string) : M Any :=
  c <- index_count (delimit nm) ;;
  if c =? 0 then raise (out_of_range "Key not found")
  else
    n <- count nm ;;
    if negb (n =? 0) then raise (out_of_range "Value not found")
    else
      N <- index_at (delimit nm) ;;
      v <- variables_at N ;;
      lift (castTo T v).

(** ** Parse *)

Definition set_app_name (argv : list string) : M unit :=
  fun st =>
    match argv with
    | first :: _ =>
        if empty_string (app_name_ st) && ignore_first_ st
        then appName (after_last_separator first) st
        else (Ok tt, st)
    | [] => (Ok tt, st)
    end.

(** [final_name_.empty() ? Argument() : arguments_[index_[final_name_]]] *)
Definition lookup_final : M Argument :=
  st <- this ;;
  if empty_string (final_name_ st) then ret Argument_default
  else i <- index_at (final_name_ st) ;; arguments_at i.

(** The initial [nrequired] and [nfinal]. *)
Definition nrequired_init (final : Argument) (required0 : Z) : Z :=
  if negb (required final) then required0 else to_size_t (required0 - 1).

Definition nfinal_init (final : Argument) : Z :=
  if negb (required final) then 0
  else match nargs final with
       | fixed_nargs n => n
       | variable_nargs c => if Ascii.eqb c "+"%char then 1 else 0
       end.

(** The working set of the first loop. *)
Record Working := mkWorking {
  active : Argument;
  consumed : Z;
  nrequired : Z
}.

(** [active.fixed && active.fixed_nargs <= consumed] and its relatives. *)
Definition fixed_le (a : Argument) (c : Z) : bool :=
  match nargs a with fixed_nargs n => n <=? c | variable_nargs _ => false end.
Definition fixed_eq (a : Argument) (c : Z) : bool :=
  match nargs a with fixed_nargs n => n =? c | variable_nargs _ => false end.
Definition fixed_gt (a : Argument) (c : Z) : bool :=
  match nargs a with fixed_nargs n => c <? n | variable_nargs _ => false end.
Definition fixed_ne (a : Argument) (c : Z) : bool :=
  match nargs a with fixed_nargs n => negb (n =? c) | variable_nargs _ => false end.
Definition variable_plus (a : Argument) : bool :=
  match nargs a with fixed_nargs _ => false | variable_nargs c => Ascii.eqb c "+"%char end.

(** [variables_[index_[nm]].castTo<std::string>() = el] and
    [variables_[index_[nm]].castTo<std::vector<std::string>>().push_back(el)]:
    [castTo] returns a copy, so the assignment and the [push_back] act on a
    temporary and the slot keeps what it held; the cast can still throw. *)
Definition assign_string (nm el : string) : M unit :=
  i <- index_at nm ;;
  v <- variables_at i ;;
  _ <- lift (castTo_string v) ;;
  ret tt.

Definition push_back_vector (nm el : string) : M unit :=
  i <- index_at nm ;;
  v <- variables_at i ;;
  _ <- lift (castTo_vector v) ;;
  ret tt.

(** The body of the first loop, at the token [el] in position [pos] of an
    [argv] of [len] tokens. *)
Definition parse_token (len nfinal pos : Z) (el : string) (w : Working) : M Working :=
  let active_name := canonicalName (active w) in
  c <- index_count el ;;
  if c =? 0 then
    when (fixed_le (active w) (consumed w))
      (argumentError TooManyInputs
         ("attempt to pass too many inputs to " +:+ active_name) true) ;;;
    (if fixed_eq (active w) 1
     then assign_string active_name el
     else push_back_vector active_name el) ;;;
    ret (mkWorking (active w) (to_size_t (consumed w + 1)) (nrequired w))
  else
    when (fixed_ne (active w) (consumed w) || (variable_plus (active w) && (consumed w <? 1)))
      (argumentError IncompleteArgument
         ("encountered argument " +:+ el +:+ " when expecting more inputs to " +:+ active_name)
         true) ;;;
    i <- index_at el ;;
    act <- arguments_at i ;;
    when (negb (required act) && (0 <? nrequired w))
      (argumentError UnexpectedRequiredArgument
         ("encountered required argument " +:+ el +:+ " when expecting more required arguments")
         true) ;;;
    let remaining := to_size_t (len - pos - nfinal - 1) in
    when (fixed_gt act remaining || (variable_plus act && (remaining =? 0)))
      (argumentError TooFewRemainingInputs
         ("too few inputs passed to argument " +:+ el) true) ;;;
    ret (mkWorking act 0
           (if required act && empty_string (default_value act)
            then to_size_t (nrequired w - 1) else nrequired w)).

(** The first loop, from position [pos] on, [tokens] being [argv] from there:
    it runs while [in < argv.end() - nfinal]. *)
Fixpoint parse_tokens (len nfinal pos : Z) (tokens : list string) (w : Working) : M Working :=
  if pos <? len - to_ptrdiff_t nfinal then
    match tokens with
    | [] => raise undefined_behaviour
    | el :: rest =>
        w' <- parse_token len nfinal pos el w ;;
        parse_tokens len nfinal (pos + 1) rest w'
    end
  else ret w.

(** The body of the second loop; the result is [nfinal] after [nfinal--]. *)
Definition parse_final_token (final : Argument) (el : string) (nfinal : Z) : M Z :=
  c <- index_count el ;;
  when (negb (c =? 0))
    (argumentError UnexpectedArgumentSpecifier
       ("encountered argument specifier " +:+ el +:+ " while parsing final required inputs")
       true) ;;;
  st <- this ;;
  (if fixed_eq final 1
   then assign_string (final_name_ st) el
   else push_back_vector (final_name_ st) el) ;;;
  ret (to_size_t (nfinal - 1)).

Fixpoint parse_final_tokens (final : Argument) (tokens : list string) (nfinal : Z) : M Z :=
  match tokens with
  | [] => ret nfinal
  | el :: rest =>
      n <- parse_final_token final el nfinal ;;
      parse_final_tokens final rest n
  end.

Definition parse (argv : list string) : M unit :=
  set_app_name argv ;;;
  final <- lookup_final ;;
  st <- this ;;
  let len := Z.of_nat (length argv) in
  let first := Z.b2z (ignore_first_ st) in
  let nreq := nrequired_init final (required_ st) in
  let nfinal := nfinal_init final in
  w <- parse_tokens len nfinal first (drop (Z.to_nat first) argv)
         (mkWorking Argument_default 0 nreq) ;;
  let start := Z.max first (len - to_ptrdiff_t nfinal) in
  (* the second loop runs until [in == argv.end()]: started beyond the end,
     it reads past the vector *)
  if len <? start then raise undefined_behaviour
  else
    n <- parse_final_tokens final (drop (Z.to_nat start) argv) nfinal ;;
    st <- this ;;
    when ((0 <? nrequired w) || (0 <? n))
      (argumentError MissingRequiredArguments
         ("too few required arguments passed to " +:+ app_name_ st) true).

(** * Stating the properties *)

(** ** What a failure is *)

Definition error_kind (f : Failure) : option ErrorKind :=
  match f with
  | invalid_argument k _ | exit_minus_5 k _ => Some k
  | _ => None
  end.

(** The call ends in an [argumentError] of kind [k], thrown or exiting. *)
Definition fails_with {A} (r : Result A) (k : ErrorKind) : Prop :=
  match r with
  | Fail f => error_kind f = Some k
  | Ok _ => False
  end.

(** The characters an [Argument] built by its constructor can hold as
    variable arity. *)
Definition constructed_nargs (n : Nargs) : Prop :=
  match n with
  | fixed_nargs k => 0 <= k < 2 ^ 64
  | variable_nargs c => c = "+"%char \/ c = "*"%char
  end.

Ltac run_M :=
  unfold bind, ret, raise, this, lift, when in *; simpl in *.


(** ** The final-argument designation *)

(** [final] is what the designation resolves to in [st]: [Argument()] when
    none is designated, else the argument that [index_] and [arguments_]
    hold under [final_name_]. *)
Definition final_is (st : ArgumentParser) (final : Argument) : Prop :=
  (final_name_ st = "" /\ final = Argument_default) \/
  (final_name_ st <> "" /\
   exists i, index_ st !! final_name_ st = Some i /\ arguments_ st !! Z.to_nat i = Some final).

(** The designation resolves. *)
Definition final_registered (st : ArgumentParser) : Prop :=
  exists final, final_is st final.

(** ** The number of reserved tokens, in the specification's words *)

(** 0 when no final argument is registered or it is not required; else its
    fixed arity, 1 for the variable arity '+', 0 for '*'. *)
Inductive nfinal_spec (registered : bool) (final : Argument) : Z -> Prop :=
| nfinal_none : registered = false -> nfinal_spec registered final 0
| nfinal_not_required : required final = false -> nfinal_spec registered final 0
| nfinal_fixed n :
    registered = true -> required final = true -> nargs final = fixed_nargs n ->
    nfinal_spec registered final n
| nfinal_plus :
    registered = true -> required final = true -> nargs final = variable_nargs "+"%char ->
    nfinal_spec registered final 1
| nfinal_star :
    registered = true -> required final = true -> nargs final = variable_nargs "*"%char ->
    nfinal_spec registered final 0.

(** ** Lines of the usage text *)

Fixpoint lines (s : string) : list string :=
  match s with
  | EmptyString => [EmptyString]
  | String c r =>
      if Ascii.eqb c "010"%char then EmptyString :: lines r
      else match lines r with
           | l :: ls => String c l :: ls
           | [] => [String c EmptyString]
           end
  end.

(** ** Parsers used as concrete inputs *)

(** The [char] that stands for a fixed arity. *)
Definition arity (n : nat) : ascii := ascii_of_nat n.

(** The object after a call. *)
Definition after (m : M unit) (st : ArgumentParser) : ArgumentParser := snd (m st).

(** [addArgument("-i", "--input", 1, "123")], as in the header's example. *)
Definition parser_input : ArgumentParser :=
  after (addArgument2 "-i" "--input" (arity 1) "123" false "") ArgumentParser_new.

(** [addArgument("-n", "--name", 1)]: no default. *)
Definition parser_name : ArgumentParser :=
  after (addArgument2 "-n" "--name" (arity 1) "" false "") ArgumentParser_new.

(** [addArgument("-p", "--pair", 2)] *)
Definition parser_pair : ArgumentParser :=
  after (addArgument2 "-p" "--pair" (arity 2) "" false "") ArgumentParser_new.

(** [addFinalArgument("file", 1, "", true); addArgument("-v", 0, "", false)] *)
Definition parser_file_v : ArgumentParser :=
  after (addFinalArgument "file" (arity 1) "" true "" ;;;
         addArgument "-v" (arity 0) "" false "") ArgumentParser_new.

Definition argument_file : Argument :=
  mkArgument "" "--file" true "" "" (fixed_nargs 1).

(** [appName("prog"); useExceptions(true); addArgument("-a")] *)
Definition parser_configured : ArgumentParser :=
  after (appName "prog" ;;; useExceptions true ;;;
         addArgument "-a" (arity 0) "" false "") ArgumentParser_new.

(** Eight optional flags under the application name [prog]. *)
Definition parser_options : ArgumentParser :=
  after (appName "prog" ;;;
         addArgument "--colour" (arity 0) "" false "" ;;;
         addArgument "--format" (arity 0) "" false "" ;;;
         addArgument "--output" (arity 0) "" false "" ;;;
         addArgument "--prefix" (arity 0) "" false "" ;;;
         addArgument "--suffix" (arity 0) "" false "" ;;;
         addArgument "--indent" (arity 0) "" false "" ;;;
         addArgument "--policy" (arity 0) "" false "" ;;;
         addArgument "--source" (arity 0) "" false "") ArgumentParser_new.

(** [addFinalArgument("file"); clear(); addArgument("-a")] *)
Definition parser_recleared : ArgumentParser :=
  after (addFinalArgument "file" (arity 1) "" true "" ;;;
         clear ;;;
         addArgument "-a" (arity 0) "" false "") ArgumentParser_new.

(** [addArgument("-r", 1, "", true); addArgument("-s", 0, "", true);
    addArgument("-o", 0, "", false)]: two required arguments, one optional. *)
Definition parser_required : ArgumentParser :=
  after (addArgument "-r" (arity 1) "" true "" ;;;
         addArgument "-s" (arity 0) "" true "" ;;;
         addArgument "-o" (arity 0) "" false "") ArgumentParser_new.

Definition argument_s : Argument :=
  mkArgument "-s" "" true "" "" (fixed_nargs 0).

(** The working set when the first loop starts on [parser_required]. *)
Definition working_required : Working := mkWorking Argument_default 0 2.

(** ** What a call leaves alone *)

(** [st'] has the registry, the value slots and the configuration of [st],
    but for the application name, and an index that extends the one of
    [st]. *)
Record extends_index (st st' : ArgumentParser) : Prop := mkExtends {
  ext_arguments : arguments_ st' = arguments_ st;
  ext_variables : variables_ st' = variables_ st;
  ext_required : required_ st' = required_ st;
  ext_final_name : final_name_ st' = final_name_ st;
  ext_ignore_first : ignore_first_ st' = ignore_first_ st;
  ext_use_exceptions : use_exceptions_ st' = use_exceptions_ st;
  ext_index : index_ st ⊆ index_ st'
}.

(** A member function that, whatever its result, only extends the index. *)
Definition keeps_slots {A} (m : M A) : Prop :=
  forall st, extends_index st (snd (m st)).

(** ** The invariant of the registry *)

(** Every index entry points into [arguments_], and the final-argument
    designation, when there is one, is a key of the index. *)
Definition registry_invariant (st : ArgumentParser) : Prop :=
  (forall k i, index_ st !! k = Some i -> is_Some (arguments_ st !! Z.to_nat i)) /\
  (final_name_ st = "" \/ is_Some (index_ st !! final_name_ st)).

(** ** Names *)

(** One of the two path separators that [parse] looks for in [argv[0]]. *)
Definition is_separator (c : ascii) : bool :=
  Ascii.eqb c "/"%char || Ascii.eqb c backslash.

(** [p] is the beginning of [s]. *)
Fixpoint starts_with (p s : string) : bool :=
  match p, s with
  | EmptyString, _ => true
  | String a p', String b s' => Ascii.eqb a b && starts_with p' s'
  | String _ _, EmptyString => false
  end.

(** The names that pass the three tests of [verify]: one character, or two
    beginning with a dash, or four and more beginning with two dashes. *)
Definition accepted_name (nm : string) : bool :=
  (size nm =? 1)%nat
  || ((size nm =? 2)%nat && starts_with "-" nm)
  || ((3 <? size nm)%nat && starts_with "--" nm).

(** The slot that [insertArgument] appends for an argument. *)
Definition initial_slot (arg : Argument) : Any :=
  match nargs arg with
  | fixed_nargs n => if n <=? 1 then AnyString (default_value arg) else AnyVector []
  | variable_nargs _ => AnyVector []
  end.

(** ** Well-formed parsers *)

(** What the declarations establish: one slot per argument; every index
    entry is a non-empty name of the argument it points to; every non-empty
    name of a registered argument is a key; the final-argument designation,
    when there is one, is a key. *)
Record well_formed (st : ArgumentParser) : Prop := mkWellFormed {
  wf_lengths : length (variables_ st) = length (arguments_ st);
  wf_index : forall k i, index_ st !! k = Some i ->
      k <> "" /\ exists a, arguments_ st !! Z.to_nat i = Some a /\ (name a = k \/ short_name a = k);
  wf_names : forall a, a ∈ arguments_ st ->
      (name a <> "" -> is_Some (index_ st !! name a)) /\
      (short_name a <> "" -> is_Some (index_ st !! short_name a));
  wf_final : final_name_ st = "" \/ is_Some (index_ st !! final_name_ st)
}.

(** The parsers that calls other than [clear()] build from a new one. *)
Inductive built : ArgumentParser -> Prop :=
| built_new : built ArgumentParser_new
| built_appName st nm : built st -> built (after (appName nm) st)
| built_ignoreFirstArgument st b : built st -> built (after (ignoreFirstArgument b) st)
| built_useExceptions st b : built st -> built (after (useExceptions b) st)
| built_addArgument st nm n d req h :
    built st -> built (after (addArgument nm n d req h) st)
| built_addArgument2 st short nm n d req h :
    built st -> built (after (addArgument2 short nm n d req h) st)
| built_addFinalArgument st nm n d req h :
    built st -> built (after (addFinalArgument nm n d req h) st)
| built_parse st argv : built st -> built (after (parse argv) st).

(** The active argument of the first loop can take a token: either it is
    full, and the next value ends the parse, or its canonical name is a
    key. *)
Definition active_ok (st : ArgumentParser) (w : Working) : Prop :=
  fixed_le (active w) (consumed w) = true \/
  is_Some (index_ st !! canonicalName (active w)).

(** The call [m] on [st] leaves [st] as it is; it reads beyond a vector only
    if [ub], and a value it returns satisfies [P]. *)
Definition yields {A} (m : M A) (st : ArgumentParser) (ub : Prop) (P : A -> Prop) : Prop :=
  exists r, m st = (r, st) /\ (r = Fail undefined_behaviour -> ub) /\
            forall a, r = Ok a -> P a.

(** ** What the registry determines *)

(** The arguments that [insertArgument] counts in [required_]. *)
Definition counts_required (a : Argument) : bool :=
  required a && empty_string (default_value a).

(** [required_] is the number of registered arguments that are required and
    have no default, as a [size_t]. *)
Definition required_counted (st : ArgumentParser) : Prop :=
  required_ st = to_size_t (Z.of_nat (length (List.filter counts_required (arguments_ st)))).

(** What [count] answers on the slot that [insertArgument] made for [arg]. *)
Definition count_initial (arg : Argument) : Result Z :=
  match nargs arg with
  | fixed_nargs k =>
      if k <=? 1 then Ok (Z.b2z (negb (empty_string (default_value arg)))) else Fail bad_cast
  | variable_nargs _ => Ok 0
  end.

(** ** parse from its loops on *)

(** [parse] from its first loop to its end, for the working set that its
    opening lines set up: the final argument, the initial [nrequired] and
    the number [nfinal] of trailing tokens reserved for the final
    argument. *)
Definition parse_loops (final : Argument) (nreq nfinal : Z) (argv : list string) : M unit :=
  st <- this ;;
  let len := Z.of_nat (length argv) in
  let first := Z.b2z (ignore_first_ st) in
  w <- parse_tokens len nfinal first (drop (Z.to_nat first) argv)
         (mkWorking Argument_default 0 nreq) ;;
  let start := Z.max first (len - to_ptrdiff_t nfinal) in
  if len <? start then raise undefined_behaviour
  else
    n <- parse_final_tokens final (drop (Z.to_nat start) argv) nfinal ;;
    st <- this ;;
    when ((0 <? nrequired w) || (0 <? n))
      (argumentError MissingRequiredArguments
         ("too few required arguments passed to " +:+ app_name_ st) true).

(** ** The final argument that the declarations register *)

(** [declares_final st o]: [st] is built from a new parser without
    [clear()], and [o] is the argument that the last [addFinalArgument] (of
    a non-empty name) registered, none if there was no such call; no later
    declaration has taken its key. *)
Inductive declares_final : ArgumentParser -> option Argument -> Prop :=
| declares_new : declares_final ArgumentParser_new None
| declares_appName st o nm :
    declares_final st o -> declares_final (after (appName nm) st) o
| declares_ignoreFirstArgument st o b :
    declares_final st o -> declares_final (after (ignoreFirstArgument b) st) o
| declares_useExceptions st o b :
    declares_final st o -> declares_final (after (useExceptions b) st) o
| declares_parse st o argv :
    declares_final st o -> declares_final (after (parse argv) st) o
| declares_addFinalArgument st o nm n d req h :
    declares_final st o -> nm <> "" ->
    declares_final (after (addFinalArgument nm n d req h) st)
      (Some (Argument_new "" (delimit nm) req n "" ""))
| declares_addArgument st o nm n d req h :
    declares_final st o -> nm <> final_name_ st ->
    declares_final (after (addArgument nm n d req h) st) o
| declares_addArgument2 st o short nm n d req h :
    declares_final st o -> short <> final_name_ st -> nm <> final_name_ st ->
    declares_final (after (addArgument2 short nm n d req h) st) o.

(** Whether a final argument is registered, and the [Argument] that [parse]
    works with: the registered one, or [Argument()]. *)
Definition final_registered_by (o : option Argument) : bool :=
  match o with Some _ => true | None => false end.

Definition final_of (o : option Argument) : Argument :=
  match o with Some a => a | None => Argument_default end.

(** * Properties *)

(** ** Constructed arguments *)

Lemma to_size_t_range z : 0 <= to_size_t z < 2 ^ 64.
Proof. unfold to_size_t. apply Z.mod_pos_bound. lia. Qed.

Lemma Argument_new_constructed s l r n d h :
  constructed_nargs (nargs (Argument_new s l r n d h)).
Proof.
  unfold Argument_new; simpl.
  destruct (Ascii.eqb n "+"%char) eqn:Hp; simpl.
  - left. now apply Ascii.eqb_eq.
  - destruct (Ascii.eqb n "*"%char) eqn:Hs; simpl.
    + right. now apply Ascii.eqb_eq.
    + apply to_size_t_range.
Qed.

(** ** The index and the registry are only read *)

Lemma index_at_present k n st :
  index_ st !! k = Some n -> index_at k st = (Ok n, st).
Proof. intros H. unfold index_at. now rewrite H. Qed.

Lemma arguments_at_frame n st : snd (arguments_at n st) = st.
Proof. unfold arguments_at. now destruct (arguments_ st !! Z.to_nat n). Qed.

Lemma variables_at_frame n st : snd (variables_at n st) = st.
Proof. unfold variables_at. now destruct (variables_ st !! Z.to_nat n). Qed.

(** ** count *)

(** What [count] gives for an undeclared name. *)
Lemma count_undeclared st nm :
  index_ st !! delimit nm = None -> count nm st = (Ok 0, st).
Proof. intros H. unfold count, index_count. run_M. now rewrite H. Qed.

(** What [count] gives for a declared name: it reads the slot as a string
    when the argument has fixed arity, whatever that arity, and as a list
    otherwise. *)
Lemma count_declared st nm N arg var :
  index_ st !! delimit nm = Some N ->
  arguments_ st !! Z.to_nat N = Some arg ->
  variables_ st !! Z.to_nat N = Some var ->
  count nm st =
    (match nargs arg, var with
     | fixed_nargs _, AnyString s => Ok (Z.b2z (negb (empty_string s)))
     | variable_nargs _, AnyVector l => Ok (Z.of_nat (length l))
     | _, _ => Fail bad_cast
     end, st).
Proof.
  intros Hi Ha Hv. unfold count, index_count, index_at, arguments_at, variables_at, fixed.
  run_M. rewrite Hi; simpl. rewrite Hi, Ha, Hv.
  destruct (nargs arg), var; reflexivity.
Qed.

Lemma count_frame st nm : snd (count nm st) = st.
Proof.
  unfold count, index_count, index_at, arguments_at, variables_at. run_M.
  destruct (index_ st !! delimit nm) as [N|] eqn:Hi; simpl; [|reflexivity].
  rewrite Hi.
  destruct (arguments_ st !! Z.to_nat N) as [arg|]; [|reflexivity].
  destruct (variables_ st !! Z.to_nat N) as [var|]; [|reflexivity].
  destruct (fixed arg), var; reflexivity.
Qed.

(** ** retrieve *)

Lemma retrieve_undeclared T st nm :
  index_ st !! delimit nm = None ->
  retrieve T nm st = (Fail (out_of_range "Key not found"), st).
Proof. intros H. unfold retrieve, index_count. run_M. now rewrite H. Qed.

(** For a declared name whose count is defined, [retrieve] throws "Value not
    found" when the count is not zero and casts the slot when it is zero. *)
Lemma retrieve_declared T st nm N n var :
  index_ st !! delimit nm = Some N ->
  variables_ st !! Z.to_nat N = Some var ->
  count nm st = (Ok n, st) ->
  retrieve T nm st =
    (if n =? 0 then castTo T var else Fail (out_of_range "Value not found"), st).
Proof.
  intros Hi Hv Hc. unfold retrieve. unfold bind at 1. unfold index_count.
  rewrite Hi; simpl. unfold bind at 1. rewrite Hc.
  destruct (n =? 0); simpl; [|reflexivity].
  unfold bind, index_at, variables_at, lift. now rewrite Hi, Hv.
Qed.

Lemma retrieve_frame T st nm : snd (retrieve T nm st) = st.
Proof.
  unfold retrieve. unfold bind at 1. unfold index_count.
  destruct (index_ st !! delimit nm) as [N|] eqn:Hi; simpl; [|reflexivity].
  unfold bind at 1. pose proof (count_frame st nm) as Hc.
  destruct (count nm st) as [[n|f] st'] eqn:Hn; simpl in Hc; subst st'; [|reflexivity].
  destruct (n =? 0); simpl; [|reflexivity].
  unfold bind, index_at, variables_at, lift. rewrite Hi.
  now destruct (variables_ st !! Z.to_nat N).
Qed.

Lemma exists_frame st nm : snd (exists_ nm st) = st.
Proof. reflexivity. Qed.

(** ** Claims on retrieval *)

(** C1 (the code departs from the claim): [get<T>(name)] should fail with
    NoValue exactly when the slot is empty and return the stored value
    otherwise. The test on [count(name)] in [retrieve] is the other way
    round: with the default "123" in the slot of [--input], [retrieve] throws
    "Value not found"; with the empty slot of [--name] it returns the empty
    string. *)
Theorem retrieve_throws_on_stored_value :
  variables_ parser_input = [AnyString "123"] /\
  retrieve T_string "input" parser_input
    = (Fail (out_of_range "Value not found"), parser_input) /\
  variables_ parser_name = [AnyString ""] /\
  retrieve T_string "name" parser_name = (Ok (AnyString ""), parser_name).
Proof. repeat split; vm_compute; reflexivity. Qed.

(** C4 (the code departs from the claim): for a fixed arity above 1 the slot
    is a list, but [count] casts it to a string whenever the arity is fixed,
    and [castTo] throws [std::bad_cast]. *)
Theorem count_throws_on_fixed_arity_2 :
  variables_ parser_pair = [AnyVector []] /\
  count "pair" parser_pair = (Fail bad_cast, parser_pair).
Proof. split; vm_compute; reflexivity. Qed.

(** ** Claims on clear *)

(** C5 (counterexample): after [clear()] the application name and the error
    mode are those set before, not those of a new parser. *)
Lemma clear_keeps_configuration :
  app_name_ (after clear parser_configured) = "prog" /\
  use_exceptions_ (after clear parser_configured) = true /\
  after clear parser_configured <> ArgumentParser_new.
Proof.
  split; [reflexivity|]. split; [reflexivity|].
  intros H. apply (f_equal app_name_) in H. vm_compute in H. discriminate H.
Qed.

(** C5 (amended): [clear()] empties the index, the registry and the value
    slots, sets the required counter to zero and first-token skipping to its
    default; the application name and the error mode stay as they were. *)
Theorem clear_resets_declarations (st : ArgumentParser) :
  fst (clear st) = Ok tt /\
  index_ (after clear st) = ∅ /\
  arguments_ (after clear st) = [] /\
  variables_ (after clear st) = [] /\
  required_ (after clear st) = 0 /\
  ignore_first_ (after clear st) = true /\
  app_name_ (after clear st) = app_name_ st /\
  use_exceptions_ (after clear st) = use_exceptions_ st.
Proof. repeat split. Qed.

(** ** Claims on usage *)

(** C6 (the code departs from the claim): [linelength] counts neither the
    preamble nor the separating spaces, so eight flags of ten characters fit
    its budget of 80 and [usage()] gives one line of 99 characters. *)
Theorem usage_line_of_99_characters :
  exists u, usage parser_options = (Ok u, parser_options) /\
            lines u = [u] /\ size u = 99%nat.
Proof. eexists. repeat split; vm_compute; reflexivity. Qed.

(** [usage()] reads the final argument with [index_[final_name_]]; when the
    designation is absent or indexed, the object is left as it was. *)
Lemma usage_frame st :
  final_name_ st = "" \/ is_Some (index_ st !! final_name_ st) ->
  snd (usage st) = st.
Proof.
  intros H. unfold usage. unfold bind at 1. unfold this.
  destruct (empty_string (final_name_ st)) eqn:He; [reflexivity|].
  destruct H as [H|[i H]]; [rewrite H in He; discriminate He|].
  unfold bind at 1. rewrite (index_at_present _ _ _ H).
  unfold bind, arguments_at.
  now destruct (arguments_ st !! Z.to_nat i).
Qed.

(** Where the final-argument designation resolves, none of the retrieval
    operations changes the object. *)
Lemma retrieval_frame st T nm :
  final_registered st ->
  snd (retrieve T nm st) = st /\ snd (count nm st) = st /\
  snd (exists_ nm st) = st /\ snd (usage st) = st.
Proof.
  intros [final Hf]. split; [apply retrieve_frame|]. split; [apply count_frame|].
  split; [apply exists_frame|]. apply usage_frame.
  destruct Hf as [[Hn _]|[_ [i [Hi _]]]]; [now left|right; now exists i].
Qed.

(** C9 (the code departs from the claim): after [clear()] the final-argument
    designation outlives the index, and [usage()] then enters it in [index_]
    through [operator[]]: [exists("file")] is false before the call and true
    after it. *)
Theorem usage_declares_final_after_clear :
  fst (exists_ "file" parser_recleared) = Ok false /\
  (exists u, fst (usage parser_recleared) = Ok u) /\
  snd (usage parser_recleared) <> parser_recleared /\
  fst (exists_ "file" (snd (usage parser_recleared))) = Ok true.
Proof.
  split; [reflexivity|]. split; [eexists; vm_compute; reflexivity|].
  split; [|vm_compute; reflexivity].
  intros H. apply (f_equal (fun st => fst (exists_ "file" st))) in H.
  vm_compute in H. discriminate H.
Qed.

(** With a final argument designated and the registry then cleared, [parse]
    reads [arguments_] beyond its size. *)
Lemma parse_after_clear_undefined :
  fst (parse ["prog"; "input.txt"]
         (after (addFinalArgument "file" (arity 1) "" true "" ;;; clear) ArgumentParser_new))
    = Fail undefined_behaviour.
Proof. vm_compute. reflexivity. Qed.

(** ** The example of a final argument and a flag *)

(** C2 (counterexample): after the parse, [get<string>("file")] is the empty
    string, not "input.txt", and [count("v")] is 0, not at least 1. *)
Lemma file_and_flag_not_as_claimed :
  fst (retrieve T_string "file" (snd (parse ["prog"; "-v"; "input.txt"] parser_file_v)))
    = Ok (AnyString "") /\
  fst (count "v" (snd (parse ["prog"; "-v"; "input.txt"] parser_file_v))) = Ok 0 /\
  ~ (fst (retrieve T_string "file" (snd (parse ["prog"; "-v"; "input.txt"] parser_file_v)))
       = Ok (AnyString "input.txt") /\
     exists n, fst (count "v" (snd (parse ["prog"; "-v"; "input.txt"] parser_file_v))) = Ok n
               /\ 1 <= n).
Proof.
  split; [vm_compute; reflexivity|]. split; [vm_compute; reflexivity|].
  intros [Hfile _]. vm_compute in Hfile. discriminate Hfile.
Qed.

(** C2 (amended): the parse succeeds, both names are declared, and
    [count("v")] is 0: a flag of arity 0 takes no token, so nothing is put in
    its slot. *)
Theorem file_and_flag_parse :
  fst (parse ["prog"; "-v"; "input.txt"] parser_file_v) = Ok tt /\
  fst (exists_ "file" (snd (parse ["prog"; "-v"; "input.txt"] parser_file_v))) = Ok true /\
  fst (exists_ "v" (snd (parse ["prog"; "-v"; "input.txt"] parser_file_v))) = Ok true /\
  fst (count "v" (snd (parse ["prog"; "-v"; "input.txt"] parser_file_v))) = Ok 0.
Proof. repeat split; vm_compute; reflexivity. Qed.

(** ** The working set at the start of parse *)

Lemma lookup_final_unregistered st :
  final_name_ st = "" -> lookup_final st = (Ok Argument_default, st).
Proof. intros H. unfold lookup_final. run_M. now rewrite H. Qed.

(** ** Failing calls *)

Lemma empty_string_true s : empty_string s = true <-> s = "".
Proof. destruct s; simpl; split; intros H; congruence. Qed.

Lemma empty_string_false s : empty_string s = false <-> s <> "".
Proof. destruct s; simpl; split; intros H; congruence. Qed.

Lemma bind_ok {A B} (m : M A) (k : A -> M B) st a st' :
  m st = (Ok a, st') -> bind m k st = k a st'.
Proof. intros H. unfold bind. now rewrite H. Qed.

Lemma bind_fail {A B} (m : M A) (k : A -> M B) st f st' :
  m st = (Fail f, st') -> bind m k st = (Fail f, st').
Proof. intros H. unfold bind. now rewrite H. Qed.

Lemma usage_defined st :
  final_registered st -> exists u, usage st = (Ok u, st).
Proof.
  intros [final [[Hn _]|[Hn [i [Hi Ha]]]]]; unfold usage; unfold bind at 1; unfold this.
  - rewrite Hn; simpl. eexists. reflexivity.
  - apply empty_string_false in Hn. rewrite Hn.
    unfold bind. rewrite (index_at_present _ _ _ Hi).
    unfold arguments_at. rewrite Ha. eexists. reflexivity.
Qed.

(** [argumentError] ends the call, with the kind it was given. *)
Lemma argumentError_fails k msg show_usage st :
  final_registered st ->
  exists f, argumentError k msg show_usage st = (Fail f, st) /\ error_kind f = Some k.
Proof.
  intros Hr. unfold argumentError. unfold bind at 1. unfold this.
  destruct (use_exceptions_ st).
  - eexists. split; reflexivity.
  - destruct show_usage.
    + destruct (usage_defined st Hr) as [u Hu].
      rewrite (bind_ok _ _ _ _ _ Hu). eexists. split; reflexivity.
    + eexists. split; reflexivity.
Qed.

(** A token that is no key, met when the active argument has fixed arity and
    has consumed that many tokens, ends the parse with TooManyInputs. *)
Lemma parse_token_too_many len nfinal pos el w st :
  final_registered st ->
  index_ st !! el = None ->
  fixed_le (active w) (consumed w) = true ->
  exists f, parse_token len nfinal pos el w st = (Fail f, st) /\
            error_kind f = Some TooManyInputs.
Proof.
  intros Hr Hi Hle. unfold parse_token. unfold bind at 1. unfold index_count.
  rewrite Hi; simpl. rewrite Hle; simpl.
  destruct (argumentError_fails TooManyInputs
              ("attempt to pass too many inputs to " +:+ canonicalName (active w)) true st Hr)
    as [f [Hf Hk]].
  exists f. split; [|exact Hk].
  now rewrite (bind_fail _ _ _ _ _ Hf).
Qed.

Lemma set_app_name_fields argv st :
  exists nm, set_app_name argv st = (Ok tt, after (appName nm) st).
Proof.
  unfold set_app_name. destruct argv as [|first rest].
  - exists (app_name_ st). now destruct st.
  - destruct (empty_string (app_name_ st) && ignore_first_ st).
    + eexists. reflexivity.
    + exists (app_name_ st). now destruct st.
Qed.

(** What a successful lookup of the final argument leaves behind. *)
Lemma lookup_final_result st final st1 :
  lookup_final st = (Ok final, st1) ->
  final_is st1 final /\ ignore_first_ st1 = ignore_first_ st.
Proof.
  unfold lookup_final. unfold bind at 1. unfold this.
  destruct (empty_string (final_name_ st)) eqn:He.
  - intros H. injection H as <- <-. split; [|reflexivity].
    left. split; [now apply empty_string_true|reflexivity].
  - unfold bind, index_at.
    destruct (index_ st !! final_name_ st) as [i|] eqn:Hi; unfold arguments_at; simpl.
    + destruct (arguments_ st !! Z.to_nat i) as [a|] eqn:Ha; [|discriminate].
      intros H. injection H as <- <-. split; [|reflexivity].
      right. split; [now apply empty_string_false|now exists i].
    + destruct (arguments_ st !! Z.to_nat 0) as [a|] eqn:Ha; [|discriminate].
      intros H. injection H as <- <-. split; [|reflexivity].
      right. simpl. split; [now apply empty_string_false|].
      exists 0. split; [apply lookup_insert_eq|exact Ha].
Qed.

(** The lookup does not read the application name. *)
Lemma lookup_final_appName nm st final st1 :
  lookup_final st = (Ok final, st1) ->
  lookup_final (after (appName nm) st) = (Ok final, after (appName nm) st1).
Proof.
  unfold lookup_final. unfold bind at 1 3. unfold this. simpl.
  destruct (empty_string (final_name_ st)) eqn:He.
  - intros H. injection H as <- <-. reflexivity.
  - unfold bind, index_at. simpl.
    destruct (index_ st !! final_name_ st) as [i|] eqn:Hi; unfold arguments_at; simpl.
    + destruct (arguments_ st !! Z.to_nat i) as [a|] eqn:Ha; [|discriminate].
      intros H. injection H as <- <-. reflexivity.
    + destruct (arguments_ st !! Z.to_nat 0) as [a|] eqn:Ha; [|discriminate].
      intros H. injection H as <- <-. reflexivity.
Qed.

(** ** A value before any key *)

(** C10: when the first token that the first loop processes (the one after
    the skipped token, before the tokens reserved for the final argument) is
    not a declared key, [parse] fails with TooManyInputs: the active argument
    is still [Argument()], of fixed arity 0. *)
Theorem parse_rejects_leading_value (st st1 : ArgumentParser) (argv : list string)
    (final : Argument) (el : string) :
  lookup_final st = (Ok final, st1) ->
  Z.b2z (ignore_first_ st) < Z.of_nat (length argv) - to_ptrdiff_t (nfinal_init final) ->
  argv !! Z.to_nat (Z.b2z (ignore_first_ st)) = Some el ->
  index_ st1 !! el = None ->
  fails_with (fst (parse argv st)) TooManyInputs.
Proof.
  intros Hl Hlt Hel Hi.
  destruct (lookup_final_result _ _ _ Hl) as [Hfin Hign].
  destruct (set_app_name_fields argv st) as [nm Hs].
  apply (lookup_final_appName nm) in Hl.
  set (st0 := after (appName nm) st1) in *.
  assert (Hr0 : final_registered st0) by (exists final; exact Hfin).
  unfold parse. rewrite (bind_ok _ _ _ _ _ Hs).
  rewrite (bind_ok _ _ _ _ _ Hl).
  unfold bind at 1. unfold this.
  change (ignore_first_ st0) with (ignore_first_ st1). rewrite Hign.
  apply Z.ltb_lt in Hlt.
  destruct (drop (Z.to_nat (Z.b2z (ignore_first_ st))) argv) as [|el' rest] eqn:Hd.
  - apply (f_equal (fun l => l !! 0%nat)) in Hd. rewrite lookup_drop in Hd.
    rewrite Nat.add_0_r, Hel in Hd. discriminate Hd.
  - assert (el' = el) as ->.
    { apply (f_equal (fun l => l !! 0%nat)) in Hd. rewrite lookup_drop in Hd.
      rewrite Nat.add_0_r, Hel in Hd. simpl in Hd. congruence. }
    destruct (parse_token_too_many (Z.of_nat (length argv)) (nfinal_init final)
                (Z.b2z (ignore_first_ st)) el
                (mkWorking Argument_default 0 (nrequired_init final (required_ st0)))
                st0 Hr0 Hi eq_refl) as [f [Hf Hk]].
    unfold bind at 1. simpl parse_tokens. rewrite Hlt.
    rewrite (bind_fail _ _ _ _ _ Hf). simpl. exact Hk.
Qed.

Lemma parse_rejects_leading_value_witness :
  fails_with (fst (parse ["prog"; "x"; "input.txt"] parser_file_v)) TooManyInputs.
Proof.
  apply (parse_rejects_leading_value parser_file_v parser_file_v
           ["prog"; "x"; "input.txt"] argument_file "x").
  - vm_compute. reflexivity.
  - vm_compute. reflexivity.
  - reflexivity.
  - vm_compute. reflexivity.
Defined.

(** ** Required keys before the others *)

(** The check of the previous argument's arity comes first: with [-s] still
    outstanding, the optional key [-o] met after [-r] without its value ends
    the parse with IncompleteArgument. *)
Lemma incomplete_argument_comes_first :
  fails_with (fst (parse ["prog"; "-r"; "-o"; "x"] parser_required)) IncompleteArgument.
Proof. vm_compute. reflexivity. Qed.

(** C8 (the code departs from the claim): [-o] is the key of an argument
    that is not required and the required [-r] has no default.  After [-s]
    alone the key [-o] ends the parse with UnexpectedRequiredArgument, as the
    claim says; but the counter counts keys, not arguments: after [-s] given
    twice it is zero, [-o] is accepted although [-r] has not appeared, and the
    parse returns with a required argument never encountered. *)
Theorem required_key_twice_admits_optional :
  index_ parser_required !! "-o" = Some 2 /\
  arguments_ parser_required !! 2%nat = Some (mkArgument "-o" "" false "" "" (fixed_nargs 0)) /\
  arguments_ parser_required !! 0%nat = Some (mkArgument "-r" "" true "" "" (fixed_nargs 1)) /\
  ("-r" ∉ ["prog"; "-s"; "-s"; "-o"]) /\
  fails_with (fst (parse ["prog"; "-s"; "-o"] parser_required)) UnexpectedRequiredArgument /\
  fst (parse ["prog"; "-s"; "-s"; "-o"] parser_required) = Ok tt.
Proof.
  split; [vm_compute; reflexivity|]. split; [reflexivity|]. split; [reflexivity|].
  split.
  - intros H. repeat (apply elem_of_cons in H as [H|H]; [discriminate H|]).
    now apply elem_of_nil in H.
  - split; vm_compute; reflexivity.
Qed.

(** One step of the first loop at a key token, once the previous active
    argument has passed its arity check: if the key's argument is not
    required and the counter [nrequired] is above zero, the step fails with
    UnexpectedRequiredArgument; if it is required, this error is not raised
    and, when enough tokens remain for it, the argument becomes active with
    [nrequired] decremented if it has no default and unchanged if it has. *)
Theorem parse_token_required_order (len nfinal pos : Z) (el : string) (w : Working)
    (st : ArgumentParser) (i : Z) (act : Argument) :
  final_registered st ->
  index_ st !! el = Some i ->
  arguments_ st !! Z.to_nat i = Some act ->
  fixed_ne (active w) (consumed w) || (variable_plus (active w) && (consumed w <? 1)) = false ->
  (required act = false -> 0 < nrequired w ->
   fails_with (fst (parse_token len nfinal pos el w st)) UnexpectedRequiredArgument) /\
  (required act = true ->
   ~ fails_with (fst (parse_token len nfinal pos el w st)) UnexpectedRequiredArgument /\
   (fixed_gt act (to_size_t (len - pos - nfinal - 1))
      || (variable_plus act && (to_size_t (len - pos - nfinal - 1) =? 0)) = false ->
    parse_token len nfinal pos el w st =
      (Ok (mkWorking act 0
             (if empty_string (default_value act)
              then to_size_t (nrequired w - 1) else nrequired w)), st))).
Proof.
  intros Hr Hi Ha Hprev.
  assert (Hstep : parse_token len nfinal pos el w st =
    (when (negb (required act) && (0 <? nrequired w))
       (argumentError UnexpectedRequiredArgument
          ("encountered required argument " +:+ el +:+ " when expecting more required arguments")
          true) ;;;
     when (fixed_gt act (to_size_t (len - pos - nfinal - 1))
           || (variable_plus act && (to_size_t (len - pos - nfinal - 1) =? 0)))
       (argumentError TooFewRemainingInputs
          ("too few inputs passed to argument " +:+ el) true) ;;;
     ret (mkWorking act 0
            (if required act && empty_string (default_value act)
             then to_size_t (nrequired w - 1) else nrequired w))) st).
  { unfold parse_token. unfold bind at 1. unfold index_count. rewrite Hi; simpl.
    rewrite Hprev. unfold when at 1. unfold bind at 1. unfold ret at 1.
    rewrite (bind_ok _ _ _ _ _ (index_at_present _ _ _ Hi)).
    unfold bind at 1. unfold arguments_at. rewrite Ha. reflexivity. }
  rewrite Hstep. clear Hstep. split.
  - intros Hq Hn. rewrite Hq. apply Z.ltb_lt in Hn. rewrite Hn. simpl.
    destruct (argumentError_fails UnexpectedRequiredArgument
      ("encountered required argument " +:+ el +:+ " when expecting more required arguments")
      true st Hr) as [f [Hf Hk]].
    rewrite (bind_fail _ _ _ _ _ Hf). exact Hk.
  - intros Hq. rewrite Hq. simpl. unfold bind at 1. unfold ret at 1.
    split.
    + destruct (fixed_gt act (to_size_t (len - pos - nfinal - 1))
                || (variable_plus act && (to_size_t (len - pos - nfinal - 1) =? 0))); simpl.
      * destruct (argumentError_fails TooFewRemainingInputs
          ("too few inputs passed to argument " +:+ el) true st Hr) as [f [Hf Hk]].
        rewrite (bind_fail _ _ _ _ _ Hf). simpl. rewrite Hk. discriminate.
      * unfold bind, ret. simpl. intros H. exact H.
    + intros Hfew. rewrite Hfew. reflexivity.
Qed.

Lemma parse_token_required_order_witness :
  fails_with (fst (parse_token 3 0 1 "-o" working_required parser_required))
    UnexpectedRequiredArgument /\
  parse_token 3 0 1 "-s" working_required parser_required
    = (Ok (mkWorking argument_s 0 1), parser_required).
Proof.
  split.
  - apply (parse_token_required_order 3 0 1 "-o" working_required parser_required 2
             (mkArgument "-o" "" false "" "" (fixed_nargs 0))).
    + exists Argument_default. left. split; reflexivity.
    + vm_compute. reflexivity.
    + reflexivity.
    + reflexivity.
    + reflexivity.
    + reflexivity.
  - apply (parse_token_required_order 3 0 1 "-s" working_required parser_required 1 argument_s).
    + exists Argument_default. left. split; reflexivity.
    + vm_compute. reflexivity.
    + reflexivity.
    + reflexivity.
    + reflexivity.
    + reflexivity.
Defined.

(** ** Parsing leaves the value slots as they were *)

Section Slots.

Lemma extends_index_refl st : extends_index st st.
Proof. now split. Qed.

Lemma extends_index_trans st1 st2 st3 :
  extends_index st1 st2 -> extends_index st2 st3 -> extends_index st1 st3.
Proof.
  intros [] []. split; try congruence. now transitivity (index_ st2).
Qed.

Context {A B : Type}.

Lemma keeps_ret (a : A) : keeps_slots (ret a).
Proof. intros st. apply extends_index_refl. Qed.

Lemma keeps_raise f : keeps_slots (@raise A f).
Proof. intros st. apply extends_index_refl. Qed.

Lemma keeps_lift (r : Result A) : keeps_slots (lift r).
Proof. intros st. apply extends_index_refl. Qed.

Lemma keeps_bind (m : M A) (k : A -> M B) :
  keeps_slots m -> (forall a, keeps_slots (k a)) -> keeps_slots (bind m k).
Proof.
  intros Hm Hk st. unfold bind. specialize (Hm st).
  destruct (m st) as [[a|f] st']; simpl in *; [|exact Hm].
  exact (extends_index_trans _ _ _ Hm (Hk a st')).
Qed.

Lemma keeps_if (b : bool) (m1 m2 : M A) :
  keeps_slots m1 -> keeps_slots m2 -> keeps_slots (if b then m1 else m2).
Proof. now destruct b. Qed.

End Slots.

Lemma keeps_this : keeps_slots this.
Proof. intros st. apply extends_index_refl. Qed.

Lemma keeps_when b m : keeps_slots m -> keeps_slots (when b m).
Proof. intros H. unfold when. apply keeps_if; [exact H|apply keeps_ret]. Qed.

Lemma keeps_index_count k : keeps_slots (index_count k).
Proof. intros st. apply extends_index_refl. Qed.

Lemma keeps_index_at k : keeps_slots (index_at k).
Proof.
  intros st. unfold index_at.
  destruct (index_ st !! k) eqn:Hk; simpl; [apply extends_index_refl|].
  split; simpl; try reflexivity. now apply insert_subseteq.
Qed.

Lemma keeps_arguments_at n : keeps_slots (arguments_at n).
Proof. intros st. rewrite arguments_at_frame. apply extends_index_refl. Qed.

Lemma keeps_variables_at n : keeps_slots (variables_at n).
Proof. intros st. rewrite variables_at_frame. apply extends_index_refl. Qed.

Create HintDb keeps.
#[local] Hint Resolve keeps_ret keeps_raise keeps_lift keeps_this keeps_when
  keeps_index_count keeps_index_at keeps_arguments_at keeps_variables_at : keeps.

(** Goes through a member function bind by bind. *)
Ltac keeps_step :=
  repeat first
    [ apply keeps_bind; [|intros ?]
    | apply keeps_if
    | solve [auto with keeps] ].

Lemma keeps_usage : keeps_slots usage.
Proof. unfold usage. keeps_step. Qed.
#[local] Hint Resolve keeps_usage : keeps.

Lemma keeps_argumentError k msg show_usage : keeps_slots (argumentError k msg show_usage).
Proof. unfold argumentError. keeps_step. Qed.
#[local] Hint Resolve keeps_argumentError : keeps.

Lemma keeps_assign_string nm el : keeps_slots (assign_string nm el).
Proof. unfold assign_string. keeps_step. Qed.

Lemma keeps_push_back_vector nm el : keeps_slots (push_back_vector nm el).
Proof. unfold push_back_vector. keeps_step. Qed.
#[local] Hint Resolve keeps_assign_string keeps_push_back_vector : keeps.

Lemma keeps_parse_token len nfinal pos el w :
  keeps_slots (parse_token len nfinal pos el w).
Proof. unfold parse_token. keeps_step. Qed.
#[local] Hint Resolve keeps_parse_token : keeps.

Lemma keeps_parse_tokens len nfinal tokens :
  forall pos w, keeps_slots (parse_tokens len nfinal pos tokens w).
Proof.
  induction tokens as [|el rest IH]; intros pos w; simpl; keeps_step.
Qed.

Lemma keeps_parse_final_token final el n : keeps_slots (parse_final_token final el n).
Proof. unfold parse_final_token. keeps_step. Qed.
#[local] Hint Resolve keeps_parse_tokens keeps_parse_final_token : keeps.

Lemma keeps_parse_final_tokens final tokens :
  forall n, keeps_slots (parse_final_tokens final tokens n).
Proof.
  induction tokens as [|el rest IH]; intros n; simpl; keeps_step.
Qed.

Lemma keeps_set_app_name argv : keeps_slots (set_app_name argv).
Proof.
  intros st. destruct (set_app_name_fields argv st) as [nm ->].
  split; simpl; reflexivity.
Qed.

Lemma keeps_lookup_final : keeps_slots lookup_final.
Proof. unfold lookup_final. keeps_step. Qed.
#[local] Hint Resolve keeps_parse_final_tokens keeps_set_app_name keeps_lookup_final : keeps.

(** Whatever the input and however the call ends, [parse] leaves every value
    slot (and every declaration) as it was: tokens are written to the copy
    that [castTo] returns. In particular a default stays in place. *)
Lemma parse_keeps_slots argv : keeps_slots (parse argv).
Proof. unfold parse. keeps_step. Qed.

Lemma parse_variables argv st : variables_ (snd (parse argv st)) = variables_ st.
Proof. apply (parse_keeps_slots argv st). Qed.

(** A non-empty string slot of a fixed-arity argument, such as a default,
    cannot be retrieved after any parse that returns: [retrieve] throws
    "Value not found" on it. *)
Lemma retrieve_after_parse_throws argv st nm N arg k d :
  index_ st !! delimit nm = Some N ->
  arguments_ st !! Z.to_nat N = Some arg ->
  nargs arg = fixed_nargs k ->
  variables_ st !! Z.to_nat N = Some (AnyString d) ->
  d <> "" ->
  fst (retrieve T_string nm (snd (parse argv st))) = Fail (out_of_range "Value not found").
Proof.
  intros Hi Ha Hk Hv Hd.
  destruct (parse_keeps_slots argv st) as [Hargs Hvars _ _ _ _ Hidx].
  set (st' := snd (parse argv st)) in *.
  assert (Hi' : index_ st' !! delimit nm = Some N)
    by (eapply lookup_weaken; [exact Hi|exact Hidx]).
  rewrite <- Hargs in Ha. rewrite <- Hvars in Hv.
  pose proof (count_declared st' nm N arg _ Hi' Ha Hv) as Hc.
  rewrite Hk in Hc.
  rewrite (retrieve_declared T_string st' nm N _ _ Hi' Hv Hc).
  apply empty_string_false in Hd. rewrite Hd. reflexivity.
Qed.

(** ** Defaults *)

(** C3 (the code departs from the claim): an argument declared with the
    default "123" keeps it through [parse], whatever the input, and the
    parse of an input without its key succeeds; but [get<string>] then throws
    "Value not found" instead of returning the default. *)
Theorem default_kept_but_not_retrieved (argv : list string) :
  fst (parse ["prog"] parser_input) = Ok tt /\
  variables_ (snd (parse argv parser_input)) = [AnyString "123"] /\
  fst (retrieve T_string "input" (snd (parse argv parser_input)))
    = Fail (out_of_range "Value not found").
Proof.
  split; [vm_compute; reflexivity|]. split.
  - rewrite parse_variables. reflexivity.
  - apply (retrieve_after_parse_throws argv parser_input "input" 0
             (mkArgument "-i" "--input" false "123" "" (fixed_nargs 1)) 1 "123");
      try reflexivity.
    discriminate.
Qed.

(** The one-name [addArgument] does not hand its default on: the slot starts
    empty. *)
Lemma addArgument_drops_default :
  variables_ (after (addArgument "--input" (arity 1) "123" false "") ArgumentParser_new)
    = [AnyString ""].
Proof. vm_compute. reflexivity. Qed.

(** ** The declarations keep the registry's invariant *)

Lemma registry_invariant_new : registry_invariant ArgumentParser_new.
Proof.
  split; [|now left]. intros k i H. simpl in H.
  rewrite lookup_empty in H. discriminate H.
Qed.

Lemma registry_invariant_final st :
  registry_invariant st -> final_registered st.
Proof.
  intros [Hidx [Hn|[i Hi]]].
  - exists Argument_default. now left.
  - destruct (empty_string (final_name_ st)) eqn:He.
    + exists Argument_default. left. split; [now apply empty_string_true|reflexivity].
    + destruct (Hidx _ _ Hi) as [a Ha]. exists a. right.
      split; [now apply empty_string_false|now exists i].
Qed.

(** Under the invariant, [parse] finds its final argument without touching
    the object. *)
Lemma registry_invariant_lookup st :
  registry_invariant st -> exists final, lookup_final st = (Ok final, st).
Proof.
  intros Hinv. destruct (registry_invariant_final st Hinv) as [final Hf].
  exists final. destruct Hf as [[Hn ->]|[Hn [i [Hi Ha]]]].
  - now apply lookup_final_unregistered.
  - unfold lookup_final. unfold bind at 1. unfold this.
    apply empty_string_false in Hn. rewrite Hn.
    unfold bind. rewrite (index_at_present _ _ _ Hi). unfold arguments_at. now rewrite Ha.
Qed.

(** An entry of the index after [index_[key] = N], done or skipped. *)
Lemma lookup_optional_insert (skip : bool) (key k : string) (N i : Z) (m : gmap string Z) :
  (if skip then m else <[key := N]> m) !! k = Some i -> i = N \/ m !! k = Some i.
Proof.
  destruct skip; [now right|].
  intros H. apply lookup_insert_Some in H as [[_ ->]|[_ H]]; [now left|now right].
Qed.

Lemma is_Some_optional_insert (skip : bool) (key k : string) (N : Z) (m : gmap string Z) :
  is_Some (m !! k) -> is_Some ((if skip then m else <[key := N]> m) !! k).
Proof.
  destruct skip; [trivial|]. intros H. apply lookup_insert_is_Some.
  destruct (decide (key = k)); [now left|now right].
Qed.

Lemma insertArgument_index_range arg st :
  (forall k i, index_ st !! k = Some i -> is_Some (arguments_ st !! Z.to_nat i)) ->
  forall k i, index_ (after (insertArgument arg) st) !! k = Some i ->
              is_Some (arguments_ (after (insertArgument arg) st) !! Z.to_nat i).
Proof.
  intros Hidx k i H. unfold after, insertArgument in *. simpl in *.
  assert (Hnew : is_Some ((arguments_ st ++ [arg]) !! length (arguments_ st))).
  { exists arg. rewrite lookup_app_r by lia. now rewrite Nat.sub_diag. }
  apply lookup_optional_insert in H as [->|H]; [now rewrite Nat2Z.id|].
  apply lookup_optional_insert in H as [->|H]; [now rewrite Nat2Z.id|].
  destruct (Hidx _ _ H) as [a Ha]. exists a.
  now apply lookup_app_l_Some.
Qed.

Lemma insertArgument_invariant arg st :
  registry_invariant st -> registry_invariant (after (insertArgument arg) st).
Proof.
  intros [Hidx Hfin]. split; [now apply insertArgument_index_range|].
  destruct Hfin as [Hn|Hs]; [now left|right].
  unfold after, insertArgument. simpl.
  now do 2 apply is_Some_optional_insert.
Qed.

(** [verify] fails or returns the name, and leaves the object alone. *)
Lemma verify_result nm st :
  verify nm st = (Ok nm, st) \/ exists f, verify nm st = (Fail f, st).
Proof.
  unfold verify, when, argumentError. unfold bind, this, ret, raise.
  destruct (empty_string nm); [destruct (use_exceptions_ st); right; eexists; reflexivity|].
  destruct (_ || _); [destruct (use_exceptions_ st); right; eexists; reflexivity|].
  destruct (_ && _); [destruct (use_exceptions_ st); right; eexists; reflexivity|].
  now left.
Qed.

Lemma addArgument_invariant nm n d req h st :
  registry_invariant st -> registry_invariant (after (addArgument nm n d req h) st).
Proof.
  intros Hinv. unfold after, addArgument.
  destruct (2 <? size nm)%nat; unfold bind;
    destruct (verify_result nm st) as [-> | [f ->]]; cbv beta iota;
    try exact Hinv;
    pose proof insertArgument_invariant as Hins; unfold after in Hins; now apply Hins.
Qed.

Lemma addArgument2_invariant short nm n d req h st :
  registry_invariant st -> registry_invariant (after (addArgument2 short nm n d req h) st).
Proof.
  intros Hinv. unfold after, addArgument2. unfold bind.
  destruct (verify_result short st) as [-> | [f ->]]; cbv beta iota; [|exact Hinv].
  destruct (verify_result nm st) as [-> | [f ->]]; cbv beta iota; [|exact Hinv].
  pose proof insertArgument_invariant as Hins; unfold after in Hins; now apply Hins.
Qed.

Lemma addFinalArgument_invariant nm n d req h st :
  registry_invariant st -> registry_invariant (after (addFinalArgument nm n d req h) st).
Proof.
  intros [Hidx _]. unfold after, addFinalArgument. unfold bind, set_final_name.
  split.
  - apply (insertArgument_index_range _
             (mkParser (index_ st) (ignore_first_ st) (use_exceptions_ st) (required_ st)
                (app_name_ st) (delimit nm) (arguments_ st) (variables_ st))).
    exact Hidx.
  - unfold insertArgument. simpl.
    destruct (empty_string (delimit nm)) eqn:He.
    + left. now apply empty_string_true.
    + right. rewrite lookup_insert_eq. now eexists.
Qed.

(** [clear()] is the one call that breaks the invariant: the designation
    stays while the index is emptied. *)
Lemma clear_breaks_invariant :
  registry_invariant (after (addFinalArgument "file" (arity 1) "" true "") ArgumentParser_new) /\
  ~ registry_invariant
      (after (addFinalArgument "file" (arity 1) "" true "" ;;; clear) ArgumentParser_new).
Proof.
  split; [apply addFinalArgument_invariant, registry_invariant_new|].
  intros [_ [H|[i H]]]; [discriminate H|].
  vm_compute in H. discriminate H.
Qed.

(** * Further properties of the code *)

(** ** Names and their keys *)

Lemma substring_all s : String.substring 0 (String.length s) s = s.
Proof. induction s as [|c s IH]; simpl; [reflexivity|now rewrite IH]. Qed.

Lemma size_append s t : size (s +:+ t) = (size s + size t)%nat.
Proof. unfold size. induction s as [|c s IH]; simpl; [reflexivity|now rewrite IH]. Qed.

(** A name of two characters or more gets two dashes. *)
Lemma delimit_long c d r :
  delimit (String c (String d r)) = String "-" (String "-" (String c (String d r))).
Proof.
  unfold delimit, size. cbn [String.length].
  replace (Nat.min (S (S (String.length r))) 2) with 2%nat by lia. reflexivity.
Qed.

Lemma strip_of_delimit (nm : string) : strip (delimit nm) = nm.
Proof.
  destruct nm as [|c [|d r]]; [reflexivity|reflexivity|].
  rewrite delimit_long. unfold strip, substr, size. cbn.
  now rewrite substring_all.
Qed.

(** [strip] undoes [delimit]: the name under which a key is looked up is
    recovered from the key, whatever the name. *)
Theorem strip_delimit (nm : string) : strip (delimit nm) = nm.
Proof. apply strip_of_delimit. Qed.

(** Two names give the same key only when they are the same name. *)
Lemma delimit_inj nm1 nm2 : delimit nm1 = delimit nm2 -> nm1 = nm2.
Proof. intros H. rewrite <- (strip_of_delimit nm1), <- (strip_of_delimit nm2). now rewrite H. Qed.

(** A key made by [delimit] has 0, 2 or at least 4 characters. *)
Lemma delimit_size nm : size (delimit nm) <> 1%nat /\ size (delimit nm) <> 3%nat.
Proof.
  destruct nm as [|c [|d r]]; [split; discriminate|split; discriminate|].
  rewrite delimit_long. split; discriminate.
Qed.

(** ** verify *)

Lemma verify_cases (nm : string) (st : ArgumentParser) :
  if accepted_name nm then verify nm st = (Ok nm, st)
  else fails_with (fst (verify nm st)) InvalidArgumentName /\ snd (verify nm st) = st.
Proof.
  unfold verify, when, argumentError, accepted_name, char_is.
  unfold bind, this, ret, raise.
  destruct nm as [|a [|b [|c [|d r]]]]; cbn -[Ascii.eqb String.append];
    try rewrite (Ascii.eqb_sym "-"%char a); try rewrite (Ascii.eqb_sym "-"%char b);
    try destruct (Ascii.eqb a "-"%char); try destruct (Ascii.eqb b "-"%char);
    cbn -[String.append]; destruct (use_exceptions_ st); cbn -[String.append];
    repeat split; reflexivity.
Qed.

(** [verify] returns the name when it is an accepted one, and otherwise fails
    with InvalidArgumentName; either way the object is left as it was.  So no
    name of three characters can be declared, and every name of one
    character can. *)
Theorem verify_accepted (nm : string) (st : ArgumentParser) :
  if accepted_name nm then verify nm st = (Ok nm, st)
  else fails_with (fst (verify nm st)) InvalidArgumentName /\ snd (verify nm st) = st.
Proof. apply verify_cases. Qed.

Lemma verify_ok nm st : accepted_name nm = true -> verify nm st = (Ok nm, st).
Proof. intros H. pose proof (verify_cases nm st) as Hv. now rewrite H in Hv. Qed.

Lemma verify_rejected nm st :
  accepted_name nm = false ->
  exists f, verify nm st = (Fail f, st) /\ error_kind f = Some InvalidArgumentName.
Proof.
  intros H. pose proof (verify_cases nm st) as Hv. rewrite H in Hv.
  destruct Hv as [Hk Hs]. destruct (verify nm st) as [[a|f] st'] eqn:E; simpl in *; [easy|].
  subst st'. now exists f.
Qed.

(** ** The registry after a declaration *)

Lemma optional_insert_Some (skip : bool) (key k : string) (N i : Z) (m : gmap string Z) :
  (if skip then m else <[key := N]> m) !! k = Some i ->
  (skip = false /\ k = key /\ i = N) \/ m !! k = Some i.
Proof.
  destruct skip; [now right|].
  intros H. apply lookup_insert_Some in H as [[-> ->]|[_ H]]; [now left|now right].
Qed.

Lemma insertArgument_well_formed arg st :
  well_formed st -> well_formed (after (insertArgument arg) st).
Proof.
  intros [Hlen Hidx Hnames Hfin]. unfold after, insertArgument.
  split; cbn [snd index_ arguments_ variables_ final_name_].
  - rewrite !length_app. simpl. now rewrite Hlen.
  - intros k i H.
    assert (Hnew : (arguments_ st ++ [arg]) !! length (arguments_ st) = Some arg).
    { rewrite lookup_app_r by lia. now rewrite Nat.sub_diag. }
    apply optional_insert_Some in H as [(Hs & -> & ->)|H].
    { split; [now apply empty_string_false|].
      exists arg. rewrite Nat2Z.id. split; [exact Hnew|now left]. }
    apply optional_insert_Some in H as [(Hs & -> & ->)|H].
    { split; [now apply empty_string_false|].
      exists arg. rewrite Nat2Z.id. split; [exact Hnew|now right]. }
    destruct (Hidx _ _ H) as [Hk [a [Ha Hn]]]. split; [exact Hk|].
    exists a. split; [now apply lookup_app_l_Some|exact Hn].
  - intros a Ha. apply elem_of_app in Ha as [Ha|Ha].
    + destruct (Hnames a Ha) as [Hn Hs].
      split; intros H; do 2 apply is_Some_optional_insert; auto.
    + apply list_elem_of_singleton in Ha as ->. split; intros H.
      * apply empty_string_false in H. rewrite H. rewrite lookup_insert_eq. now eexists.
      * apply is_Some_optional_insert.
        apply empty_string_false in H. rewrite H. rewrite lookup_insert_eq. now eexists.
  - destruct Hfin as [Hn|Hs]; [now left|right].
    now do 2 apply is_Some_optional_insert.
Qed.

Lemma well_formed_new : well_formed ArgumentParser_new.
Proof.
  split; simpl.
  - reflexivity.
  - intros k i H. rewrite lookup_empty in H. discriminate H.
  - intros a Ha. now apply elem_of_nil in Ha.
  - now left.
Qed.

(** Well-formedness does not read the configuration. *)
Lemma well_formed_configuration st st' :
  index_ st' = index_ st -> arguments_ st' = arguments_ st ->
  variables_ st' = variables_ st -> final_name_ st' = final_name_ st ->
  well_formed st -> well_formed st'.
Proof.
  intros Hi Ha Hv Hf [Hlen Hidx Hnames Hfin].
  split; rewrite ?Hi, ?Ha, ?Hv, ?Hf; assumption.
Qed.

Lemma addArgument_well_formed nm n d req h st :
  well_formed st -> well_formed (after (addArgument nm n d req h) st).
Proof.
  intros Hwf. unfold after, addArgument.
  pose proof insertArgument_well_formed as Hins. unfold after in Hins.
  destruct (2 <? size nm)%nat; unfold bind;
    destruct (verify_result nm st) as [-> | [f ->]]; cbv beta iota;
    try exact Hwf; now apply Hins.
Qed.

Lemma addArgument2_well_formed short nm n d req h st :
  well_formed st -> well_formed (after (addArgument2 short nm n d req h) st).
Proof.
  intros Hwf. unfold after, addArgument2. unfold bind.
  pose proof insertArgument_well_formed as Hins. unfold after in Hins.
  destruct (verify_result short st) as [-> | [f ->]]; cbv beta iota; [|exact Hwf].
  destruct (verify_result nm st) as [-> | [f ->]]; cbv beta iota; [|exact Hwf].
  now apply Hins.
Qed.

Lemma addFinalArgument_well_formed nm n d req h st :
  well_formed st -> well_formed (after (addFinalArgument nm n d req h) st).
Proof.
  intros Hwf.
  set (arg := Argument_new "" (delimit nm) req n "" "").
  set (st0 := mkParser (index_ st) (ignore_first_ st) (use_exceptions_ st) (required_ st)
                (app_name_ st) "" (arguments_ st) (variables_ st)).
  assert (Hwf0 : well_formed st0).
  { destruct Hwf as [Hlen Hidx Hnames _]. split; try assumption. now left. }
  destruct (insertArgument_well_formed arg st0 Hwf0) as [Hlen Hidx Hnames _].
  unfold after, addFinalArgument, bind, set_final_name. cbv beta iota.
  split; try assumption.
  unfold insertArgument. cbn [snd index_ final_name_ name short_name arg Argument_new].
  cbn [empty_string].
  destruct (empty_string (delimit nm)) eqn:He.
  - left. now apply empty_string_true.
  - right. rewrite lookup_insert_eq. now eexists.
Qed.

(** ** Calls that leave the object as it is *)

Section Yields.
Context {A B : Type}.
Implicit Types (st : ArgumentParser) (ub : Prop).

Lemma yields_ret st ub (P : A -> Prop) a : P a -> yields (ret a) st ub P.
Proof. intros H. exists (Ok a). repeat split; [discriminate|]. now intros ? [= <-]. Qed.

Lemma yields_lift st ub (P : A -> Prop) (r : Result A) :
  r <> Fail undefined_behaviour -> (forall a, r = Ok a -> P a) -> yields (lift r) st ub P.
Proof. intros Hr HP. exists r. repeat split; [now intros ?|exact HP]. Qed.

Lemma yields_bind st ub (P : A -> Prop) (Q : B -> Prop) (m : M A) (k : A -> M B) :
  yields m st ub P -> (forall a, P a -> yields (k a) st ub Q) -> yields (bind m k) st ub Q.
Proof.
  intros (r & Hm & Hub & HP) Hk. unfold yields, bind. rewrite Hm.
  destruct r as [a|f].
  - exact (Hk a (HP a eq_refl)).
  - exists (Fail f). repeat split; [|discriminate].
    intros [= ->]. now apply Hub.
Qed.

Lemma yields_weaken st ub ub' (P P' : A -> Prop) (m : M A) :
  yields m st ub P -> (ub -> ub') -> (forall a, P a -> P' a) -> yields m st ub' P'.
Proof.
  intros (r & Hm & Hub & HP) Hu Hp. exists r. repeat split; auto.
Qed.

End Yields.

Lemma yields_this st ub : yields this st ub (fun s => s = st).
Proof. exists (Ok st). repeat split; [discriminate|]. now intros ? [= <-]. Qed.

Lemma yields_when st ub b m :
  yields m st ub (fun _ => False) -> yields (when b m) st ub (fun _ => b = false).
Proof.
  destruct b; simpl.
  - intros H. eapply yields_weaken; [exact H|trivial|]. now intros _ [].
  - intros _. now apply yields_ret.
Qed.

Lemma yields_index_count st ub k :
  yields (index_count k) st ub (fun c => (c =? 0) = negb (bool_decide (is_Some (index_ st !! k)))).
Proof.
  eexists. repeat split; [discriminate|]. intros c [= <-].
  destruct (index_ st !! k) eqn:Hk.
  - rewrite bool_decide_eq_true_2 by (now eexists). reflexivity.
  - rewrite bool_decide_eq_false_2 by (now intros [? ?]). reflexivity.
Qed.

Lemma yields_index_at st ub k i :
  index_ st !! k = Some i -> yields (index_at k) st ub (fun j => j = i).
Proof.
  intros H. exists (Ok i). rewrite (index_at_present _ _ _ H).
  repeat split; [discriminate|]. now intros ? [= <-].
Qed.

Lemma yields_arguments_at st ub i a :
  arguments_ st !! Z.to_nat i = Some a -> yields (arguments_at i) st ub (fun b => b = a).
Proof.
  intros H. exists (Ok a). unfold arguments_at. rewrite H.
  repeat split; [discriminate|]. now intros ? [= <-].
Qed.

Lemma yields_variables_at st ub i v :
  variables_ st !! Z.to_nat i = Some v -> yields (variables_at i) st ub (fun b => b = v).
Proof.
  intros H. exists (Ok v). unfold variables_at. rewrite H.
  repeat split; [discriminate|]. now intros ? [= <-].
Qed.

Lemma well_formed_final st : well_formed st -> final_registered st.
Proof.
  intros [_ Hidx _ [Hn|[i Hi]]].
  - exists Argument_default. now left.
  - destruct (Hidx _ _ Hi) as [Hk [a [Ha _]]]. exists a. right.
    split; [exact Hk|now exists i].
Qed.

Lemma yields_argumentError st ub k msg show_usage :
  well_formed st -> yields (argumentError k msg show_usage) st ub (fun _ => False).
Proof.
  intros Hwf.
  destruct (argumentError_fails k msg show_usage st (well_formed_final st Hwf)) as [f [Hf Hk]].
  exists (Fail f). split; [exact Hf|]. split; [|discriminate].
  intros [= ->]. discriminate Hk.
Qed.

(** A key of a well-formed parser has a slot. *)
Lemma well_formed_slot st k i :
  well_formed st -> index_ st !! k = Some i -> is_Some (variables_ st !! Z.to_nat i).
Proof.
  intros [Hlen Hidx _ _] Hi. destruct (Hidx _ _ Hi) as [_ [a [Ha _]]].
  apply lookup_lt_is_Some. rewrite Hlen. apply lookup_lt_is_Some. now exists a.
Qed.

Lemma yields_assign_string st ub nm el :
  well_formed st -> is_Some (index_ st !! nm) ->
  yields (assign_string nm el) st ub (fun _ => True).
Proof.
  intros Hwf [i Hi]. destruct (well_formed_slot st nm i Hwf Hi) as [v Hv].
  unfold assign_string.
  eapply yields_bind; [apply yields_index_at; exact Hi|intros ? ->].
  eapply yields_bind; [apply yields_variables_at; exact Hv|intros ? ->].
  eapply yields_bind; [|intros; now apply yields_ret].
  apply (yields_lift _ _ (fun _ => True)); [now destruct v|trivial].
Qed.

Lemma yields_push_back_vector st ub nm el :
  well_formed st -> is_Some (index_ st !! nm) ->
  yields (push_back_vector nm el) st ub (fun _ => True).
Proof.
  intros Hwf [i Hi]. destruct (well_formed_slot st nm i Hwf Hi) as [v Hv].
  unfold push_back_vector.
  eapply yields_bind; [apply yields_index_at; exact Hi|intros ? ->].
  eapply yields_bind; [apply yields_variables_at; exact Hv|intros ? ->].
  eapply yields_bind; [|intros; now apply yields_ret].
  apply (yields_lift _ _ (fun _ => True)); [now destruct v|trivial].
Qed.

(** The canonical name of a registered argument that a key points to is
    itself a key. *)
Lemma well_formed_canonical st k i a :
  well_formed st -> index_ st !! k = Some i -> arguments_ st !! Z.to_nat i = Some a ->
  is_Some (index_ st !! canonicalName a).
Proof.
  intros [_ Hidx Hnames _] Hi Ha.
  destruct (Hidx _ _ Hi) as [Hk [a' [Ha' Hn]]].
  assert (a' = a) as -> by congruence.
  assert (Hin : a ∈ arguments_ st) by (eapply list_elem_of_lookup_2; exact Ha).
  destruct (Hnames a Hin) as [Hlong Hshort].
  unfold canonicalName. destruct (empty_string (name a)) eqn:He.
  - apply empty_string_true in He.
    destruct Hn as [Hn|Hn]; [congruence|]. rewrite Hn. now exists i.
  - apply Hlong. now apply empty_string_false.
Qed.

(** On a well-formed parser a step of the first loop reads within bounds and
    leaves the object as it is. *)
Lemma yields_parse_token st ub len nfinal pos el w :
  well_formed st -> active_ok st w ->
  yields (parse_token len nfinal pos el w) st ub (active_ok st).
Proof.
  intros Hwf Hact. unfold parse_token.
  eapply yields_bind; [apply yields_index_count|intros c Hc; cbv beta in Hc].
  destruct (c =? 0).
  - eapply yields_bind; [apply yields_when, yields_argumentError; exact Hwf|intros u Hle; cbv beta in Hle].
    destruct Hact as [Hact|Hact]; [congruence|].
    eapply yields_bind.
    + destruct (fixed_eq (active w) 1).
      * apply (yields_assign_string st ub _ el Hwf Hact).
      * apply (yields_push_back_vector st ub _ el Hwf Hact).
    + intros ? _. apply yields_ret. now right.
  - symmetry in Hc. apply negb_false_iff, bool_decide_eq_true in Hc. destruct Hc as [i Hi].
    destruct (wf_index st Hwf _ _ Hi) as [_ [a [Ha _]]].
    eapply yields_bind; [apply yields_when, yields_argumentError; exact Hwf|intros ? _].
    eapply yields_bind; [apply yields_index_at; exact Hi|intros ? ->].
    eapply yields_bind; [apply yields_arguments_at; exact Ha|intros ? ->].
    eapply yields_bind; [apply yields_when, yields_argumentError; exact Hwf|intros ? _].
    eapply yields_bind; [apply yields_when, yields_argumentError; exact Hwf|intros ? _].
    apply yields_ret. right. simpl. exact (well_formed_canonical st el i a Hwf Hi Ha).
Qed.

(** The first loop: it reads beyond [argv] only if the positions do not add
    up or the reserved count is negative as a difference. *)
Lemma yields_parse_tokens st len nfinal tokens :
  well_formed st ->
  forall pos w, active_ok st w ->
  yields (parse_tokens len nfinal pos tokens w) st
    (~ (0 <= to_ptrdiff_t nfinal /\ Z.of_nat (length tokens) = len - pos))
    (fun _ => True).
Proof.
  intros Hwf. induction tokens as [|el rest IH]; intros pos w Hact; simpl.
  - destruct (pos <? len - to_ptrdiff_t nfinal) eqn:Hlt.
    + exists (Fail undefined_behaviour). split; [reflexivity|]. split; [|discriminate].
      intros _ [Hn Hl]. apply Z.ltb_lt in Hlt. simpl in Hl. lia.
    + now apply yields_ret.
  - destruct (pos <? len - to_ptrdiff_t nfinal) eqn:Hlt; [|now apply yields_ret].
    eapply yields_bind; [apply yields_parse_token; assumption|intros w' Hw'].
    eapply yields_weaken; [apply (IH (pos + 1) w' Hw')| |trivial].
    intros Hub [Hn Hl]. apply Hub. split; [exact Hn|]. simpl in Hl. lia.
Qed.

Lemma yields_parse_final_token st ub final el n :
  well_formed st -> is_Some (index_ st !! final_name_ st) ->
  yields (parse_final_token final el n) st ub (fun _ => True).
Proof.
  intros Hwf Hfin. unfold parse_final_token.
  eapply yields_bind; [apply yields_index_count|intros c _].
  eapply yields_bind; [apply yields_when, yields_argumentError; exact Hwf|intros ? _].
  eapply yields_bind; [apply yields_this|intros ? ->].
  eapply yields_bind.
  - destruct (fixed_eq final 1).
    + apply (yields_assign_string st ub _ el Hwf Hfin).
    + apply (yields_push_back_vector st ub _ el Hwf Hfin).
  - intros ? _. now apply yields_ret.
Qed.

Lemma yields_parse_final_tokens st ub final tokens :
  well_formed st -> tokens = [] \/ is_Some (index_ st !! final_name_ st) ->
  forall n, yields (parse_final_tokens final tokens n) st ub (fun _ => True).
Proof.
  intros Hwf Hfin. induction tokens as [|el rest IH]; intros n; simpl.
  - now apply yields_ret.
  - destruct Hfin as [Hnil|Hfin]; [discriminate Hnil|].
    eapply yields_bind; [apply yields_parse_final_token; assumption|intros n' _].
    apply IH. now right.
Qed.

Lemma final_is_lookup st final :
  final_is st final -> lookup_final st = (Ok final, st).
Proof.
  intros [[Hn ->]|[Hn [i [Hi Ha]]]].
  - now apply lookup_final_unregistered.
  - unfold lookup_final. unfold bind at 1. unfold this.
    apply empty_string_false in Hn. rewrite Hn.
    unfold bind. rewrite (index_at_present _ _ _ Hi). unfold arguments_at. now rewrite Ha.
Qed.

(** What [parse] does after it has named the application and found its final
    argument. *)
Lemma yields_parse_loops st argv final :
  well_formed st -> final_is st final ->
  yields
    (st' <- this ;;
     let len := Z.of_nat (length argv) in
     let first := Z.b2z (ignore_first_ st') in
     let nreq := nrequired_init final (required_ st') in
     let nfinal := nfinal_init final in
     w <- parse_tokens len nfinal first (drop (Z.to_nat first) argv)
            (mkWorking Argument_default 0 nreq) ;;
     let start := Z.max first (len - to_ptrdiff_t nfinal) in
     if len <? start then raise undefined_behaviour
     else
       n <- parse_final_tokens final (drop (Z.to_nat start) argv) nfinal ;;
       st'' <- this ;;
       when ((0 <? nrequired w) || (0 <? n))
         (argumentError MissingRequiredArguments
            ("too few required arguments passed to " +:+ app_name_ st'') true))
    st
    (~ (0 <= to_ptrdiff_t (nfinal_init final)
        /\ Z.b2z (ignore_first_ st) <= Z.of_nat (length argv)))
    (fun _ => True).
Proof.
  intros Hwf Hfinal.
  eapply yields_bind; [apply yields_this|intros ? ->]. cbv zeta.
  set (len := Z.of_nat (length argv)). set (first := Z.b2z (ignore_first_ st)).
  set (n' := to_ptrdiff_t (nfinal_init final)).
  assert (Hfirst : 0 <= first <= 1) by (unfold first; destruct (ignore_first_ st); simpl; lia).
  eapply yields_bind.
  - eapply yields_weaken; [apply (yields_parse_tokens st len (nfinal_init final) _ Hwf first)| |].
    + left. reflexivity.
    + intros Hub [Hn Hf]. apply Hub. split; [exact Hn|].
      rewrite length_drop. fold len. lia.
    + intros w Hw. exact Hw.
  - intros w _. destruct (len <? Z.max first (len - n')) eqn:Hlt.
    + exists (Fail undefined_behaviour). split; [reflexivity|]. split; [|discriminate].
      intros _ [Hn Hf]. apply Z.ltb_lt in Hlt. lia.
    + apply Z.ltb_ge in Hlt.
      eapply yields_bind.
      * apply yields_parse_final_tokens; [exact Hwf|].
        destruct Hfinal as [[Hn ->]|[_ [i [Hi _]]]]; [left|right; now exists i].
        change (to_ptrdiff_t (nfinal_init Argument_default)) with 0 in n'.
        apply length_zero_iff_nil. rewrite length_drop. fold len. lia.
      * intros n _.
        eapply yields_bind; [apply yields_this|intros ? ->].
        eapply yields_weaken;
          [apply yields_when, yields_argumentError; exact Hwf|intros H; exact H|trivial].
Qed.

(** ** parse on a well-formed parser *)

Lemma parse_well_formed st argv final :
  well_formed st -> final_is st final ->
  exists r, parse argv st = (r, after (set_app_name argv) st) /\
            (r = Fail undefined_behaviour ->
             ~ (0 <= to_ptrdiff_t (nfinal_init final)
                /\ Z.b2z (ignore_first_ st) <= Z.of_nat (length argv))).
Proof.
  intros Hwf Hfinal.
  destruct (set_app_name_fields argv st) as [nm Hs].
  unfold after at 1. rewrite Hs. cbn [snd].
  set (st0 := after (appName nm) st) in *.
  assert (Hwf0 : well_formed st0)
    by (apply (well_formed_configuration st st0); [reflexivity..|exact Hwf]).
  assert (Hfinal0 : final_is st0 final) by exact Hfinal.
  destruct (yields_parse_loops st0 argv final Hwf0 Hfinal0) as (r & Hr & Hub & _).
  exists r. split; [|exact Hub].
  unfold parse. rewrite (bind_ok _ _ _ _ _ Hs).
  rewrite (bind_ok _ _ _ _ _ (final_is_lookup _ _ Hfinal0)).
  exact Hr.
Qed.

Lemma parse_frame_well_formed (st : ArgumentParser) (argv : list string) :
  well_formed st -> after (parse argv) st = after (set_app_name argv) st.
Proof.
  intros Hwf. destruct (well_formed_final st Hwf) as [final Hfinal].
  destruct (parse_well_formed st argv final Hwf Hfinal) as (r & Hr & _).
  unfold after at 1. now rewrite Hr.
Qed.

(** On a well-formed parser, [parse] changes nothing but the application
    name, which it derives from [argv[0]] when none is set: declarations,
    index, value slots and configuration are after the call what they were
    before, however the call ends. *)
Theorem parse_changes_app_name_only (st : ArgumentParser) (argv : list string) :
  well_formed st -> after (parse argv) st = after (set_app_name argv) st.
Proof. apply parse_frame_well_formed. Qed.

(** With an application name set, [parse] leaves a well-formed parser
    exactly as it was. *)
Theorem parse_named_unchanged (st : ArgumentParser) (argv : list string) :
  well_formed st -> app_name_ st <> "" -> after (parse argv) st = st.
Proof.
  intros Hwf Hname. rewrite (parse_frame_well_formed st argv Hwf).
  unfold after, set_app_name. apply empty_string_false in Hname. rewrite Hname.
  now destruct argv.
Qed.

(** On a well-formed parser [parse] reads within its vectors, provided the
    input holds the token that is skipped and the final argument reserves a
    count below [2^63]. *)
Theorem parse_in_bounds (st : ArgumentParser) (argv : list string) (final : Argument) :
  well_formed st -> final_is st final ->
  0 <= nfinal_init final < 2 ^ 63 ->
  (ignore_first_ st = true -> argv <> []) ->
  fst (parse argv st) <> Fail undefined_behaviour.
Proof.
  intros Hwf Hfinal Hn Hargv.
  destruct (parse_well_formed st argv final Hwf Hfinal) as (r & Hr & Hub).
  rewrite Hr. cbn [fst]. intros ->. apply Hub; [reflexivity|].
  split.
  - unfold to_ptrdiff_t. destruct (nfinal_init final <? 2 ^ 63) eqn:E; [lia|].
    apply Z.ltb_ge in E. lia.
  - destruct (ignore_first_ st); simpl; [|lia].
    destruct argv; [now contradiction Hargv|simpl; lia].
Qed.

Lemma built_is_well_formed (st : ArgumentParser) : built st -> well_formed st.
Proof.
  induction 1 as [|st nm _ IH|st b _ IH|st b _ IH|st nm n d req h _ IH
                 |st short nm n d req h _ IH|st nm n d req h _ IH|st argv _ IH].
  - exact well_formed_new.
  - apply (well_formed_configuration st); [reflexivity..|exact IH].
  - apply (well_formed_configuration st); [reflexivity..|exact IH].
  - apply (well_formed_configuration st); [reflexivity..|exact IH].
  - now apply addArgument_well_formed.
  - now apply addArgument2_well_formed.
  - now apply addFinalArgument_well_formed.
  - rewrite (parse_frame_well_formed st argv IH).
    destruct (set_app_name_fields argv st) as [nm Hs]. unfold after at 1. rewrite Hs.
    apply (well_formed_configuration st); [reflexivity..|exact IH].
Qed.

(** Every parser built from a new one by declarations, settings and parses
    is well formed. *)
Theorem built_well_formed (st : ArgumentParser) : built st -> well_formed st.
Proof. apply built_is_well_formed. Qed.

(** ** Declarations and what is found after them *)

(** For the names that [verify] accepts with a dash, [delimit] undoes
    [strip]: the stripped name leads back to the key. *)
Lemma delimit_strip nm :
  accepted_name nm = true -> size nm <> 1%nat -> delimit (strip nm) = nm.
Proof.
  unfold accepted_name.
  destruct nm as [|a [|b [|c [|d r]]]]; cbn -[Ascii.eqb]; try discriminate; try congruence.
  - destruct (Ascii.eqb "-" a) eqn:E; [|discriminate]. apply Ascii.eqb_eq in E. subst a.
    intros _ _. reflexivity.
  - destruct (Ascii.eqb "-" a) eqn:E; [|discriminate]. apply Ascii.eqb_eq in E. subst a.
    destruct (Ascii.eqb "-" b) eqn:E; [|discriminate]. apply Ascii.eqb_eq in E. subst b.
    intros _ _. unfold strip, substr, size, char_is. cbn.
    rewrite substring_all. apply delimit_long.
Qed.

Lemma accepted_name_nonempty nm : accepted_name nm = true -> empty_string nm = false.
Proof. destruct nm; [discriminate|reflexivity]. Qed.

(** What [insertArgument] leaves in the object. *)
Lemma insertArgument_fields arg st :
  arguments_ (after (insertArgument arg) st) = arguments_ st ++ [arg] /\
  variables_ (after (insertArgument arg) st) = variables_ st ++ [initial_slot arg] /\
  index_ (after (insertArgument arg) st) =
    (if empty_string (name arg) then fun m => m
     else <[name arg := Z.of_nat (length (arguments_ st))]>)
      ((if empty_string (short_name arg) then fun m => m
        else <[short_name arg := Z.of_nat (length (arguments_ st))]>) (index_ st)).
Proof.
  unfold after, insertArgument, initial_slot. cbn [snd arguments_ variables_ index_].
  repeat split. destruct (empty_string (name arg)), (empty_string (short_name arg)); reflexivity.
Qed.

(** The two-name [addArgument] either declares its argument, when both names
    are accepted by [verify], or fails with InvalidArgumentName and declares
    nothing: the object is then exactly as before. *)
Theorem addArgument2_outcome (short nm : string) (n : ascii) (d : string) (req : bool)
    (h : string) (st : ArgumentParser) :
  if accepted_name short && accepted_name nm
  then fst (addArgument2 short nm n d req h st) = Ok tt /\
       arguments_ (after (addArgument2 short nm n d req h) st)
         = arguments_ st ++ [Argument_new short nm req n d h]
  else fails_with (fst (addArgument2 short nm n d req h st)) InvalidArgumentName /\
       after (addArgument2 short nm n d req h) st = st.
Proof.
  unfold after, addArgument2.
  destruct (accepted_name short) eqn:Hs; simpl.
  - rewrite (bind_ok _ _ _ _ _ (verify_ok short st Hs)).
    destruct (accepted_name nm) eqn:Hl.
    + rewrite (bind_ok _ _ _ _ _ (verify_ok nm st Hl)). split; reflexivity.
    + destruct (verify_rejected nm st Hl) as [f [Hf Hk]].
      rewrite (bind_fail _ _ _ _ _ Hf). now split.
  - destruct (verify_rejected short st Hs) as [f [Hf Hk]].
    rewrite (bind_fail _ _ _ _ _ Hf). now split.
Qed.

(** After a two-name declaration with names that [verify] accepts with their
    dashes, both stripped names are found, and [count] reports on the slot as
    it was initialised: 1 or 0 according to whether a default was given when
    the arity is at most 1, 0 for a variable arity, and [std::bad_cast] for a
    fixed arity above 1. *)
Theorem addArgument2_found (short nm : string) (n : ascii) (d : string) (req : bool)
    (h : string) (st : ArgumentParser) :
  length (variables_ st) = length (arguments_ st) ->
  accepted_name short = true -> size short <> 1%nat ->
  accepted_name nm = true -> size nm <> 1%nat ->
  let st' := after (addArgument2 short nm n d req h) st in
  let outcome :=
    match nargs (Argument_new short nm req n d h) with
    | fixed_nargs k => if k <=? 1 then Ok (Z.b2z (negb (empty_string d))) else Fail bad_cast
    | variable_nargs _ => Ok 0
    end in
  exists_ (strip nm) st' = (Ok true, st') /\ exists_ (strip short) st' = (Ok true, st') /\
  count (strip nm) st' = (outcome, st') /\ count (strip short) st' = (outcome, st').
Proof.
  intros Hlen Hs Hs1 Hl Hl1 st' outcome.
  set (arg := Argument_new short nm req n d h) in *.
  assert (Hst' : st' = after (insertArgument arg) st).
  { unfold st', after, addArgument2.
    rewrite (bind_ok _ _ _ _ _ (verify_ok short st Hs)).
    now rewrite (bind_ok _ _ _ _ _ (verify_ok nm st Hl)). }
  destruct (insertArgument_fields arg st) as (Ha & Hv & Hi).
  rewrite <- Hst' in Ha, Hv, Hi. cbn [arg Argument_new name short_name] in Hi.
  rewrite (accepted_name_nonempty _ Hs), (accepted_name_nonempty _ Hl) in Hi.
  set (N := Z.of_nat (length (arguments_ st))) in *.
  assert (Hnm : index_ st' !! nm = Some N) by (rewrite Hi; apply lookup_insert_eq).
  assert (Hshort : index_ st' !! short = Some N).
  { rewrite Hi. destruct (decide (nm = short)) as [->|Hne].
    - apply lookup_insert_eq.
    - rewrite lookup_insert_ne by exact Hne. apply lookup_insert_eq. }
  assert (Harg : arguments_ st' !! Z.to_nat N = Some arg).
  { rewrite Ha. unfold N. rewrite Nat2Z.id, lookup_app_r by lia. now rewrite Nat.sub_diag. }
  assert (Hvar : variables_ st' !! Z.to_nat N = Some (initial_slot arg)).
  { rewrite Hv. unfold N. rewrite Nat2Z.id, <- Hlen, lookup_app_r by lia.
    now rewrite Nat.sub_diag. }
  assert (Hcount : forall key, index_ st' !! delimit key = Some N ->
                               count key st' = (outcome, st')).
  { intros key Hkey. rewrite (count_declared st' key N arg _ Hkey Harg Hvar).
    unfold outcome, initial_slot. change (default_value arg) with d.
    destruct (nargs arg) as [k|c]; [|reflexivity].
    now destruct (k <=? 1). }
  assert (Hex : forall key, index_ st' !! delimit key = Some N ->
                            exists_ key st' = (Ok true, st')).
  { intros key Hkey. unfold exists_, index_count, bind, ret. now rewrite Hkey. }
  rewrite <- (delimit_strip nm Hl Hl1) in Hnm.
  rewrite <- (delimit_strip short Hs Hs1) in Hshort.
  auto.
Qed.

(** A name of one character passes [verify] and its argument is appended to
    the registry, but no name leads to it: [exists] answers for every name
    what it answered before the declaration. *)
Theorem one_character_name_unreachable (c n : ascii) (d : string) (req : bool) (h : string)
    (st : ArgumentParser) (nm : string) :
  fst (addArgument (String c "") n d req h st) = Ok tt /\
  arguments_ (after (addArgument (String c "") n d req h) st)
    = arguments_ st ++ [Argument_new (String c "") "" req n "" ""] /\
  fst (exists_ nm (after (addArgument (String c "") n d req h) st)) = fst (exists_ nm st).
Proof.
  unfold after, addArgument. cbn [size String.length Nat.ltb Nat.leb].
  rewrite (bind_ok _ _ _ _ _ (verify_ok (String c "") st eq_refl)).
  split; [reflexivity|]. split; [reflexivity|].
  unfold exists_, index_count, bind, ret, insertArgument.
  cbn [fst snd index_ Argument_new short_name name empty_string].
  rewrite lookup_insert_ne; [reflexivity|].
  intros H. destruct (delimit_size nm) as [H1 _]. apply H1. now rewrite <- H.
Qed.

Lemma addArgument2_found_witness :
  exists_ "input" parser_input = (Ok true, parser_input) /\
  exists_ "i" parser_input = (Ok true, parser_input) /\
  count "input" parser_input = (Ok 1, parser_input) /\
  count "i" parser_input = (Ok 1, parser_input).
Proof.
  apply (addArgument2_found "-i" "--input" (arity 1) "123" false "" ArgumentParser_new);
    [reflexivity|reflexivity|simpl; lia|reflexivity|simpl; lia].
Defined.

(** After [addFinalArgument(name)] with a non-empty name, the name is found
    and the argument just declared is the one that [parse] takes as final,
    whatever was declared under that key before. *)
Theorem addFinalArgument_found (nm : string) (n : ascii) (d : string) (req : bool)
    (h : string) (st : ArgumentParser) :
  nm <> "" ->
  let st' := after (addFinalArgument nm n d req h) st in
  exists_ nm st' = (Ok true, st') /\
  lookup_final st' = (Ok (Argument_new "" (delimit nm) req n "" ""), st').
Proof.
  intros Hnm st'.
  set (arg := Argument_new "" (delimit nm) req n "" "").
  set (N := Z.of_nat (length (arguments_ st))).
  assert (Hne : empty_string (delimit nm) = false) by (now destruct nm).
  assert (Hfin : final_name_ st' = delimit nm) by reflexivity.
  assert (Hi : index_ st' !! delimit nm = Some N).
  { unfold st', after, addFinalArgument, bind, set_final_name, insertArgument.
    cbn [snd index_ arguments_ Argument_new name short_name empty_string].
    rewrite Hne. apply lookup_insert_eq. }
  assert (Ha : arguments_ st' !! Z.to_nat N = Some arg).
  { unfold st', after, addFinalArgument, bind, set_final_name, insertArgument.
    cbn [snd arguments_]. unfold N. rewrite Nat2Z.id, lookup_app_r by lia.
    now rewrite Nat.sub_diag. }
  split.
  - unfold exists_, index_count, bind, ret. now rewrite Hi.
  - apply final_is_lookup. right. rewrite Hfin.
    split; [now apply empty_string_false|now exists N].
Qed.

Lemma addFinalArgument_found_witness :
  exists_ "file" (after (addFinalArgument "file" (arity 1) "" true "") parser_input)
    = (Ok true, after (addFinalArgument "file" (arity 1) "" true "") parser_input) /\
  lookup_final (after (addFinalArgument "file" (arity 1) "" true "") parser_input)
    = (Ok (Argument_new "" (delimit "file") true (arity 1) "" ""),
       after (addFinalArgument "file" (arity 1) "" true "") parser_input).
Proof.
  apply (addFinalArgument_found "file" (arity 1) "" true "" parser_input). discriminate.
Defined.

(** The parsers used as inputs are built by declarations. *)
Lemma parser_file_v_built : built parser_file_v.
Proof.
  change parser_file_v with
    (after (addArgument "-v" (arity 0) "" false "")
       (after (addFinalArgument "file" (arity 1) "" true "") ArgumentParser_new)).
  repeat constructor.
Qed.

Lemma parser_configured_built : built parser_configured.
Proof.
  change parser_configured with
    (after (addArgument "-a" (arity 0) "" false "")
       (after (useExceptions true) (after (appName "prog") ArgumentParser_new))).
  repeat constructor.
Qed.

Lemma built_well_formed_witness : well_formed parser_file_v.
Proof. apply (built_well_formed parser_file_v). exact parser_file_v_built. Defined.

Lemma parse_changes_app_name_only_witness :
  after (parse ["/usr/bin/prog"; "-v"; "input.txt"]) parser_file_v
  = after (set_app_name ["/usr/bin/prog"; "-v"; "input.txt"]) parser_file_v.
Proof.
  apply (parse_changes_app_name_only parser_file_v ["/usr/bin/prog"; "-v"; "input.txt"]).
  exact (built_is_well_formed _ parser_file_v_built).
Defined.

Lemma parse_named_unchanged_witness :
  after (parse ["prog"; "x"]) parser_configured = parser_configured.
Proof.
  apply (parse_named_unchanged parser_configured ["prog"; "x"]).
  - exact (built_is_well_formed _ parser_configured_built).
  - discriminate.
Defined.

Lemma parse_in_bounds_witness :
  fst (parse ["prog"; "-v"; "input.txt"] parser_file_v) <> Fail undefined_behaviour.
Proof.
  apply (parse_in_bounds parser_file_v ["prog"; "-v"; "input.txt"] argument_file).
  - exact (built_is_well_formed _ parser_file_v_built).
  - right. split; [discriminate|]. exists 0. split; vm_compute; reflexivity.
  - vm_compute. split; [discriminate|reflexivity].
  - discriminate.
Defined.

(** ** parse at the edges of its input *)

Lemma to_ptrdiff_t_small z : 0 <= z < 2 ^ 63 -> to_ptrdiff_t z = z.
Proof.
  intros H. unfold to_ptrdiff_t. destruct (z <? 2 ^ 63) eqn:E; [reflexivity|].
  apply Z.ltb_ge in E. lia.
Qed.

(** An empty vector parsed with first-token skipping on (the default): the
    second loop starts one past the end and reads beyond the vector. *)
Theorem parse_empty_vector (st : ArgumentParser) (final : Argument) :
  ignore_first_ st = true -> final_is st final ->
  0 <= nfinal_init final < 2 ^ 63 ->
  fst (parse [] st) = Fail undefined_behaviour.
Proof.
  intros Hign Hfinal Hn. unfold parse.
  rewrite (bind_ok _ _ st tt st) by reflexivity.
  rewrite (bind_ok _ _ _ _ _ (final_is_lookup _ _ Hfinal)).
  unfold bind at 1. unfold this. rewrite Hign.
  change (Z.of_nat (length [])) with 0. change (Z.b2z true) with 1.
  change (drop (Z.to_nat 1) (@nil string)) with (@nil string).
  cbn [parse_tokens]. rewrite (to_ptrdiff_t_small _ Hn).
  replace (1 <? 0 - nfinal_init final) with false by (symmetry; apply Z.ltb_ge; lia).
  unfold bind at 1. unfold ret at 1.
  replace (0 <? Z.max 1 (0 - nfinal_init final)) with true by (symmetry; apply Z.ltb_lt; lia).
  reflexivity.
Qed.

Lemma parse_empty_vector_witness :
  fst (parse [] parser_file_v) = Fail undefined_behaviour.
Proof.
  apply (parse_empty_vector parser_file_v argument_file).
  - reflexivity.
  - right. split; [discriminate|]. exists 0. split; vm_compute; reflexivity.
  - vm_compute. split; [discriminate|reflexivity].
Defined.

(** A vector that holds nothing to process (only the token that is skipped,
    or nothing when no token is skipped): [parse] fails with
    MissingRequiredArguments when its counter of required arguments or the
    count reserved for the final argument is above zero, and succeeds
    otherwise. *)
Theorem parse_nothing_to_process (st : ArgumentParser) (argv : list string)
    (final : Argument) :
  Z.of_nat (length argv) = Z.b2z (ignore_first_ st) ->
  final_is st final ->
  0 <= nfinal_init final < 2 ^ 63 ->
  if (0 <? nrequired_init final (required_ st)) || (0 <? nfinal_init final)
  then fails_with (fst (parse argv st)) MissingRequiredArguments
  else fst (parse argv st) = Ok tt.
Proof.
  intros Hlen Hfinal Hn.
  destruct (set_app_name_fields argv st) as [nm Hs].
  set (st0 := after (appName nm) st) in *.
  assert (Hfinal0 : final_is st0 final) by exact Hfinal.
  assert (Hparse : parse argv st =
    when ((0 <? nrequired_init final (required_ st)) || (0 <? nfinal_init final))
      (argumentError MissingRequiredArguments
         ("too few required arguments passed to " +:+ app_name_ st0) true) st0).
  { unfold parse. rewrite (bind_ok _ _ _ _ _ Hs).
    rewrite (bind_ok _ _ _ _ _ (final_is_lookup _ _ Hfinal0)).
    unfold bind at 1. unfold this.
    change (ignore_first_ st0) with (ignore_first_ st).
    change (required_ st0) with (required_ st).
    rewrite Hlen, (to_ptrdiff_t_small _ Hn).
    set (first := Z.b2z (ignore_first_ st)) in *.
    assert (Hdrop : drop (Z.to_nat first) argv = []).
    { apply length_zero_iff_nil. rewrite length_drop. lia. }
    rewrite Hdrop. cbn [parse_tokens]. rewrite ?(to_ptrdiff_t_small _ Hn).
    replace (first <? first - nfinal_init final) with false by (symmetry; apply Z.ltb_ge; lia).
    unfold bind at 1. unfold ret at 1.
    replace (Z.max first (first - nfinal_init final)) with first by lia.
    rewrite Z.ltb_irrefl, Hdrop. cbn [parse_final_tokens].
    reflexivity. }
  rewrite Hparse.
  destruct ((0 <? nrequired_init final (required_ st)) || (0 <? nfinal_init final)).
  - destruct (argumentError_fails MissingRequiredArguments
      ("too few required arguments passed to " +:+ app_name_ st0) true st0) as [f [Hf Hk]].
    { now exists final. }
    unfold when. rewrite Hf. exact Hk.
  - reflexivity.
Qed.

Lemma parse_nothing_to_process_witness :
  fails_with (fst (parse ["prog"] parser_file_v)) MissingRequiredArguments.
Proof.
  apply (parse_nothing_to_process parser_file_v ["prog"] argument_file).
  - reflexivity.
  - right. split; [discriminate|]. exists 0. split; vm_compute; reflexivity.
  - vm_compute. split; [discriminate|reflexivity].
Defined.

(** ** Retrieval around a parse *)

(** The answer of [count], read off the entry of the name, the registry and
    the slots. *)
Lemma count_result st nm :
  fst (count nm st) =
    match index_ st !! delimit nm with
    | None => Ok 0
    | Some N =>
        match arguments_ st !! Z.to_nat N, variables_ st !! Z.to_nat N with
        | Some arg, Some var =>
            if fixed arg
            then match castTo_string var with
                 | Ok s => Ok (Z.b2z (negb (empty_string s)))
                 | Fail f => Fail f
                 end
            else match castTo_vector var with
                 | Ok l => Ok (Z.of_nat (length l))
                 | Fail f => Fail f
                 end
        | _, _ => Fail undefined_behaviour
        end
    end.
Proof.
  unfold count, index_count, index_at, arguments_at, variables_at, bind, ret, lift.
  destruct (index_ st !! delimit nm) as [N|] eqn:HN; simpl; [|reflexivity].
  rewrite HN.
  destruct (arguments_ st !! Z.to_nat N) as [arg|]; [|reflexivity].
  destruct (variables_ st !! Z.to_nat N) as [var|]; [|reflexivity].
  destruct (fixed arg), var; reflexivity.
Qed.

Lemma retrieve_result T st nm :
  fst (retrieve T nm st) =
    match index_ st !! delimit nm with
    | None => Fail (out_of_range "Key not found")
    | Some N =>
        match fst (count nm st) with
        | Ok n =>
            if negb (n =? 0) then Fail (out_of_range "Value not found")
            else match variables_ st !! Z.to_nat N with
                 | Some v => castTo T v
                 | None => Fail undefined_behaviour
                 end
        | Fail f => Fail f
        end
    end.
Proof.
  unfold retrieve. unfold bind at 1. unfold index_count.
  destruct (index_ st !! delimit nm) as [N|] eqn:HN; simpl; [|reflexivity].
  unfold bind at 1. pose proof (count_frame st nm) as Hf.
  destruct (count nm st) as [[n|f] s]; simpl in *; subst s; [|reflexivity].
  destruct (negb (n =? 0)); [reflexivity|].
  unfold bind, index_at, variables_at, lift. rewrite HN.
  now destruct (variables_ st !! Z.to_nat N).
Qed.

(** [count] and [retrieve] read the entry of the name, the registry and the
    slots, and nothing else. *)
Lemma retrieval_congruence T st st' nm :
  index_ st' !! delimit nm = index_ st !! delimit nm ->
  arguments_ st' = arguments_ st -> variables_ st' = variables_ st ->
  fst (count nm st') = fst (count nm st) /\
  fst (retrieve T nm st') = fst (retrieve T nm st).
Proof.
  intros Hi Ha Hv.
  assert (Hcount : fst (count nm st') = fst (count nm st))
    by (rewrite !count_result, Hi, Ha, Hv; reflexivity).
  split; [exact Hcount|].
  rewrite !retrieve_result, Hcount, Hi, Hv. reflexivity.
Qed.

(** What [count] and [retrieve] give for a declared name is after any parse
    what it was before: no token of the input reaches them. *)
Theorem parse_keeps_retrieval (T : ValueType) (st : ArgumentParser) (argv : list string)
    (nm : string) :
  is_Some (index_ st !! delimit nm) ->
  fst (count nm (after (parse argv) st)) = fst (count nm st) /\
  fst (retrieve T nm (after (parse argv) st)) = fst (retrieve T nm st).
Proof.
  intros [N HN].
  destruct (parse_keeps_slots argv st) as [Hargs Hvars _ _ _ _ Hidx].
  apply retrieval_congruence; [|exact Hargs|exact Hvars].
  rewrite HN. eapply lookup_weaken; [exact HN|exact Hidx].
Qed.

Lemma parse_keeps_retrieval_witness :
  fst (count "file" (after (parse ["prog"; "-v"; "input.txt"]) parser_file_v))
    = fst (count "file" parser_file_v) /\
  fst (retrieve T_string "file" (after (parse ["prog"; "-v"; "input.txt"]) parser_file_v))
    = fst (retrieve T_string "file" parser_file_v).
Proof.
  apply (parse_keeps_retrieval T_string parser_file_v ["prog"; "-v"; "input.txt"] "file").
  vm_compute. eexists. reflexivity.
Defined.

(** [retrieve], [count] and [exists] leave the object as it is, in every
    state and whatever they answer. *)
Theorem retrieval_leaves_object (T : ValueType) (st : ArgumentParser) (nm : string) :
  snd (retrieve T nm st) = st /\ snd (count nm st) = st /\ snd (exists_ nm st) = st.
Proof.
  split; [apply retrieve_frame|]. split; [apply count_frame|apply exists_frame].
Qed.

(** On a parser built without [clear()], [usage()] returns its text and
    leaves the object as it is. *)
Theorem usage_built (st : ArgumentParser) :
  built st -> exists u, usage st = (Ok u, st).
Proof.
  intros Hb. apply usage_defined, well_formed_final, built_is_well_formed, Hb.
Qed.

Lemma usage_built_witness : exists u, usage parser_file_v = (Ok u, parser_file_v).
Proof. apply (usage_built parser_file_v). exact parser_file_v_built. Defined.

(** ** The application name *)

Lemma contains_separator_false s :
  contains_char "/"%char s || contains_char backslash s = false ->
  contains_char "/"%char s = false /\ contains_char backslash s = false.
Proof. intros H. now apply orb_false_iff in H. Qed.

(** [after_last_separator] gives the part of the path after its last slash
    or backslash: the result holds no separator, it ends the path, and what
    precedes it is empty or ends in a separator. *)
Theorem after_last_separator_suffix (s : string) :
  contains_char "/"%char (after_last_separator s) = false /\
  contains_char backslash (after_last_separator s) = false /\
  exists p, s = p +:+ after_last_separator s /\
            (p = "" \/ exists p' c, p = p' +:+ String c "" /\ is_separator c = true).
Proof.
  induction s as [|c r (IH1 & IH2 & p & Hp & Hlast)]; simpl.
  - repeat split. exists "". split; [reflexivity|now left].
  - destruct (contains_char "/"%char r || contains_char backslash r) eqn:Hr.
    + split; [exact IH1|]. split; [exact IH2|].
      exists (String c p).
      split; [change (String c r = String c (p +:+ after_last_separator r)); now rewrite <- Hp|].
      right.
      destruct Hlast as [->|(p' & d & -> & Hd)].
      * change (r = after_last_separator r) in Hp. rewrite Hp, IH1, IH2 in Hr. discriminate Hr.
      * exists (String c p'), d. split; [reflexivity|exact Hd].
    + destruct (contains_separator_false r Hr) as [Hr1 Hr2].
      destruct (Ascii.eqb c "/"%char || Ascii.eqb c backslash) eqn:Hc.
      * split; [exact Hr1|]. split; [exact Hr2|].
        exists (String c ""). split; [reflexivity|]. right.
        exists "", c. split; [reflexivity|exact Hc].
      * apply orb_false_iff in Hc as [Hc1 Hc2]. simpl. rewrite Hc1, Hc2, Hr1, Hr2.
        repeat split. exists "". split; [reflexivity|now left].
Qed.

(** A parse with first-token skipping on and no application name set names
    the application after the last path segment of [argv[0]]. *)
Theorem parse_derives_app_name (st : ArgumentParser) (first : string) (rest : list string) :
  well_formed st -> app_name_ st = "" -> ignore_first_ st = true ->
  app_name_ (after (parse (first :: rest)) st) = after_last_separator first.
Proof.
  intros Hwf Hname Hign. rewrite (parse_frame_well_formed st _ Hwf).
  unfold after, set_app_name. now rewrite Hname, Hign.
Qed.

Lemma parse_derives_app_name_witness :
  app_name_ (after (parse ["/usr/bin/prog"; "-v"; "input.txt"]) parser_file_v)
  = after_last_separator "/usr/bin/prog".
Proof.
  apply (parse_derives_app_name parser_file_v "/usr/bin/prog" ["-v"; "input.txt"]).
  - exact (built_is_well_formed _ parser_file_v_built).
  - reflexivity.
  - reflexivity.
Defined.

(** ** upper *)

Lemma toupper_idempotent c : toupper (toupper c) = toupper c.
Proof. destruct c as [[] [] [] [] [] [] [] []]; reflexivity. Qed.

(** [upper] keeps the length of its argument and changes nothing in a string
    that it has produced. *)
Theorem upper_idempotent (s : string) :
  size (upper s) = size s /\ upper (upper s) = upper s.
Proof.
  induction s as [|c r [IH1 IH2]]; simpl; [now split|].
  unfold size in *. simpl. now rewrite IH1, IH2, toupper_idempotent.
Qed.

(** ** usage *)

Lemma starts_with_refl p : starts_with p p = true.
Proof.
  induction p as [|a p IH]; simpl; [reflexivity|]. now rewrite Ascii.eqb_refl, IH.
Qed.

Lemma starts_with_extend p s t :
  starts_with p s = true -> starts_with p (s +:+ t) = true.
Proof.
  revert s. induction p as [|a p IH]; intros s H; [reflexivity|].
  destruct s as [|b s]; [discriminate H|]. simpl in *.
  apply andb_true_iff in H as [-> H]. now rewrite (IH s H).
Qed.

Lemma usage_argument_preamble p final_name indent skip acc arg :
  starts_with p (fst acc) = true ->
  starts_with p (fst (usage_argument final_name indent skip acc arg)) = true.
Proof.
  intros H. destruct acc as [help linelength]. unfold usage_argument.
  destruct (Bool.eqb (required arg) skip); [exact H|].
  destruct (String.eqb (name arg) final_name); [exact H|].
  destruct (80 <? size (toString arg true) + linelength)%nat; simpl in *;
    repeat apply starts_with_extend; exact H.
Qed.

Lemma usage_arguments_preamble p final_name indent skip args :
  forall acc, starts_with p (fst acc) = true ->
  starts_with p (fst (foldl (usage_argument final_name indent skip) acc args)) = true.
Proof.
  induction args as [|arg args IH]; intros acc H; simpl; [exact H|].
  apply IH. now apply usage_argument_preamble.
Qed.

(** Whatever is declared, the text that [usage()] returns begins with
    "Usage: " and the escaped application name. *)
Theorem usage_preamble (st st' : ArgumentParser) (u : string) :
  usage st = (Ok u, st') ->
  starts_with ("Usage: " +:+ escape (app_name_ st)) u = true.
Proof.
  unfold usage. unfold bind at 1. unfold this.
  set (p := "Usage: " +:+ escape (app_name_ st)).
  set (acc := foldl _ (foldl _ _ _) _).
  assert (Hacc : starts_with p (fst acc) = true).
  { unfold acc. do 2 apply usage_arguments_preamble. apply starts_with_refl. }
  destruct (empty_string (final_name_ st)).
  - intros [= <- _]. exact Hacc.
  - unfold bind at 1. destruct (index_at (final_name_ st) st) as [[i|f] s]; [|discriminate].
    unfold bind. destruct (arguments_at i s) as [[arg|f] s']; [|discriminate].
    intros [= <- _]. destruct acc as [help linelength]. unfold usage_final.
    destruct (80 <? size (toString arg false) + linelength)%nat; cbn [fst] in *;
      repeat apply starts_with_extend; exact Hacc.
Qed.

Lemma usage_preamble_witness :
  starts_with ("Usage: " +:+ escape (app_name_ parser_options))
    ("Usage: prog [--colour] [--format] [--output] [--prefix] [--suffix] [--indent] [--policy] [--source]")
  = true.
Proof.
  apply (usage_preamble parser_options parser_options). vm_compute. reflexivity.
Defined.

(** With no final argument designated, an argument that has only a short
    name is left out of the usage text: its empty long name compares equal
    to the empty [final_name_]. *)
Theorem usage_omits_short_names (st : ArgumentParser) :
  final_name_ st = "" -> Forall (fun a => name a = "") (arguments_ st) ->
  usage st = (Ok ("Usage: " +:+ escape (app_name_ st)), st).
Proof.
  intros Hfin Hshort. unfold usage. unfold bind at 1. unfold this. rewrite Hfin. simpl.
  assert (Hfold : forall skip acc,
    foldl (usage_argument "" (size ("Usage: " +:+ escape (app_name_ st))) skip) acc
      (arguments_ st) = acc).
  { intros skip. induction Hshort as [|a args Ha _ IH]; intros acc; [reflexivity|].
    simpl. rewrite <- (IH acc) at 2. f_equal.
    destruct acc as [help linelength]. unfold usage_argument. rewrite Ha.
    now destruct (Bool.eqb (required a) skip). }
  now rewrite !Hfold.
Qed.

Lemma usage_omits_short_names_witness :
  usage parser_required = (Ok ("Usage: " +:+ escape (app_name_ parser_required)), parser_required).
Proof.
  apply (usage_omits_short_names parser_required).
  - reflexivity.
  - repeat constructor.
Defined.

(** ** Errors of parse *)

(** When the first processed token makes the body of the first loop fail,
    [parse] fails in the same way. *)
Lemma parse_first_token_fails st argv final el f s :
  final_is st final ->
  Z.b2z (ignore_first_ st) < Z.of_nat (length argv) - to_ptrdiff_t (nfinal_init final) ->
  argv !! Z.to_nat (Z.b2z (ignore_first_ st)) = Some el ->
  parse_token (Z.of_nat (length argv)) (nfinal_init final) (Z.b2z (ignore_first_ st)) el
    (mkWorking Argument_default 0 (nrequired_init final (required_ st)))
    (after (set_app_name argv) st) = (Fail f, s) ->
  parse argv st = (Fail f, s).
Proof.
  intros Hfinal Hlt Hel Htok.
  destruct (set_app_name_fields argv st) as [nm Hs].
  unfold after in Htok. rewrite Hs in Htok. cbn [snd] in Htok.
  set (st0 := after (appName nm) st) in *.
  assert (Hfinal0 : final_is st0 final) by exact Hfinal.
  unfold parse. rewrite (bind_ok _ _ _ _ _ Hs).
  rewrite (bind_ok _ _ _ _ _ (final_is_lookup _ _ Hfinal0)).
  unfold bind at 1. unfold this.
  change (ignore_first_ st0) with (ignore_first_ st).
  change (required_ st0) with (required_ st).
  apply Z.ltb_lt in Hlt.
  destruct (drop (Z.to_nat (Z.b2z (ignore_first_ st))) argv) as [|el' rest] eqn:Hd.
  - apply (f_equal (fun l => l !! 0%nat)) in Hd. rewrite lookup_drop in Hd.
    rewrite Nat.add_0_r, Hel in Hd. discriminate Hd.
  - assert (el' = el) as ->.
    { apply (f_equal (fun l => l !! 0%nat)) in Hd. rewrite lookup_drop in Hd.
      rewrite Nat.add_0_r, Hel in Hd. simpl in Hd. congruence. }
    unfold bind at 1. cbn [parse_tokens]. rewrite Hlt.
    now rewrite (bind_fail _ _ _ _ _ Htok).
Qed.

(** When the first processed token is a key whose argument may come now (it
    is required, or no required argument is outstanding) but asks for more
    tokens than are left before the reserved ones, [parse] fails with
    TooFewRemainingInputs. *)
Theorem parse_first_key_too_few (st : ArgumentParser) (argv : list string)
    (final act : Argument) (el : string) (i : Z) :
  final_is st final ->
  Z.b2z (ignore_first_ st) < Z.of_nat (length argv) - to_ptrdiff_t (nfinal_init final) ->
  argv !! Z.to_nat (Z.b2z (ignore_first_ st)) = Some el ->
  index_ st !! el = Some i ->
  arguments_ st !! Z.to_nat i = Some act ->
  negb (required act) && (0 <? nrequired_init final (required_ st)) = false ->
  (let remaining :=
     to_size_t (Z.of_nat (length argv) - Z.b2z (ignore_first_ st) - nfinal_init final - 1) in
   fixed_gt act remaining || (variable_plus act && (remaining =? 0)) = true) ->
  fails_with (fst (parse argv st)) TooFewRemainingInputs.
Proof.
  intros Hfinal Hlt Hel Hi Ha Hreq Hfew. cbv zeta in Hfew.
  destruct (set_app_name_fields argv st) as [nm Hs].
  assert (Hst0 : after (set_app_name argv) st = after (appName nm) st)
    by (unfold after at 1; now rewrite Hs).
  set (st0 := after (appName nm) st) in *.
  assert (Hr0 : final_registered st0) by (now exists final).
  destruct (argumentError_fails TooFewRemainingInputs
              ("too few inputs passed to argument " +:+ el) true st0 Hr0) as [f [Hf Hk]].
  rewrite (parse_first_token_fails st argv final el f st0 Hfinal Hlt Hel).
  - exact Hk.
  - rewrite Hst0. unfold parse_token. unfold bind at 1. unfold index_count.
    change (index_ st0) with (index_ st). rewrite Hi. cbn [Z.eqb].
    cbn [active consumed nrequired fixed_ne variable_plus Argument_default nargs negb andb orb
         Z.eqb when].
    unfold bind at 1. unfold ret at 1.
    rewrite (bind_ok _ _ st0 i st0) by (apply index_at_present; exact Hi).
    rewrite (bind_ok _ _ st0 act st0)
      by (unfold arguments_at; change (arguments_ st0) with (arguments_ st); now rewrite Ha).
    rewrite Hreq. unfold when at 1. unfold bind at 1. unfold ret at 1.
    rewrite Hfew. unfold when. now rewrite (bind_fail _ _ _ _ _ Hf).
Qed.

Lemma parse_first_key_too_few_witness :
  fails_with (fst (parse ["prog"; "-r"] parser_required)) TooFewRemainingInputs.
Proof.
  apply (parse_first_key_too_few parser_required ["prog"; "-r"] Argument_default
           (mkArgument "-r" "" true "" "" (fixed_nargs 1)) "-r" 0).
  - left. split; reflexivity.
  - vm_compute. reflexivity.
  - reflexivity.
  - vm_compute. reflexivity.
  - reflexivity.
  - reflexivity.
  - vm_compute. reflexivity.
Defined.

(** When every token after the skipped one is reserved for the final
    argument and the first of them is a declared key, [parse] fails with
    UnexpectedArgumentSpecifier. *)
Theorem parse_reserved_key (st : ArgumentParser) (argv : list string) (final : Argument)
    (el : string) :
  final_is st final ->
  0 <= nfinal_init final < 2 ^ 63 ->
  Z.of_nat (length argv) - nfinal_init final <= Z.b2z (ignore_first_ st) ->
  argv !! Z.to_nat (Z.b2z (ignore_first_ st)) = Some el ->
  is_Some (index_ st !! el) ->
  fails_with (fst (parse argv st)) UnexpectedArgumentSpecifier.
Proof.
  intros Hfinal Hn Hres Hel [i Hi].
  destruct (set_app_name_fields argv st) as [nm Hs].
  set (st0 := after (appName nm) st) in *.
  assert (Hfinal0 : final_is st0 final) by exact Hfinal.
  assert (Hr0 : final_registered st0) by (now exists final).
  destruct (argumentError_fails UnexpectedArgumentSpecifier
    ("encountered argument specifier " +:+ el +:+ " while parsing final required inputs")
    true st0 Hr0) as [f [Hf Hk]].
  assert (Hparse : parse argv st = (Fail f, st0)); [|now rewrite Hparse].
  unfold parse. rewrite (bind_ok _ _ _ _ _ Hs).
  rewrite (bind_ok _ _ _ _ _ (final_is_lookup _ _ Hfinal0)).
  unfold bind at 1. unfold this.
  change (ignore_first_ st0) with (ignore_first_ st).
  set (first := Z.b2z (ignore_first_ st)) in *.
  set (len := Z.of_nat (length argv)) in *.
  assert (Hfirst : 0 <= first) by (unfold first; destruct (ignore_first_ st); simpl; lia).
  assert (Hdrop : exists rest, drop (Z.to_nat first) argv = el :: rest).
  { destruct (drop (Z.to_nat first) argv) as [|el' rest] eqn:Hd.
    - apply (f_equal (fun l => l !! 0%nat)) in Hd. rewrite lookup_drop in Hd.
      rewrite Nat.add_0_r, Hel in Hd. discriminate Hd.
    - apply (f_equal (fun l => l !! 0%nat)) in Hd. rewrite lookup_drop in Hd.
      rewrite Nat.add_0_r, Hel in Hd. simpl in Hd. exists rest. congruence. }
  destruct Hdrop as [rest Hdrop].
  assert (Hlen : first < len).
  { apply lookup_lt_Some in Hel. unfold len. lia. }
  rewrite (to_ptrdiff_t_small _ Hn).
  assert (Hloop : forall w, parse_tokens len (nfinal_init final) first
                              (drop (Z.to_nat first) argv) w st0 = (Ok w, st0)).
  { intros w. rewrite Hdrop. cbn [parse_tokens]. rewrite (to_ptrdiff_t_small _ Hn).
    replace (first <? len - nfinal_init final) with false by (symmetry; apply Z.ltb_ge; lia).
    reflexivity. }
  rewrite (bind_ok _ _ _ _ _ (Hloop _)).
  replace (Z.max first (len - nfinal_init final)) with first by lia.
  replace (len <? first) with false by (symmetry; apply Z.ltb_ge; lia).
  rewrite Hdrop. cbn [parse_final_tokens].
  apply bind_fail, bind_fail.
  unfold parse_final_token. unfold bind at 1. unfold index_count.
  change (index_ st0) with (index_ st). rewrite Hi. cbn [Z.eqb negb when].
  now rewrite (bind_fail _ _ _ _ _ Hf).
Qed.

Lemma parse_reserved_key_witness :
  fails_with (fst (parse ["prog"; "-v"] parser_file_v)) UnexpectedArgumentSpecifier.
Proof.
  apply (parse_reserved_key parser_file_v ["prog"; "-v"] argument_file "-v").
  - right. split; [discriminate|]. exists 0. split; vm_compute; reflexivity.
  - vm_compute. split; [discriminate|reflexivity].
  - vm_compute. discriminate.
  - reflexivity.
  - vm_compute. eexists. reflexivity.
Defined.

(** At a key token met while the active argument still lacks tokens (its
    fixed arity is not what it has consumed, or its arity is '+' and it has
    consumed none), the step of the first loop fails with IncompleteArgument,
    whichever argument the key names. *)
Theorem parse_token_incomplete (len nfinal pos : Z) (el : string) (w : Working)
    (st : ArgumentParser) :
  final_registered st ->
  is_Some (index_ st !! el) ->
  fixed_ne (active w) (consumed w) || (variable_plus (active w) && (consumed w <? 1)) = true ->
  fails_with (fst (parse_token len nfinal pos el w st)) IncompleteArgument.
Proof.
  intros Hr [i Hi] Hinc.
  destruct (argumentError_fails IncompleteArgument
    ("encountered argument " +:+ el +:+ " when expecting more inputs to "
       +:+ canonicalName (active w)) true st Hr) as [f [Hf Hk]].
  unfold parse_token. unfold bind at 1. unfold index_count. rewrite Hi. cbn [Z.eqb].
  rewrite Hinc. unfold when. now rewrite (bind_fail _ _ _ _ _ Hf).
Qed.

Lemma parse_token_incomplete_witness :
  fails_with
    (fst (parse_token 4 0 2 "-o"
            (mkWorking (mkArgument "-r" "" true "" "" (fixed_nargs 1)) 0 1) parser_required))
    IncompleteArgument.
Proof.
  apply (parse_token_incomplete 4 0 2 "-o"
           (mkWorking (mkArgument "-r" "" true "" "" (fixed_nargs 1)) 0 1) parser_required).
  - exists Argument_default. left. split; reflexivity.
  - vm_compute. eexists. reflexivity.
  - reflexivity.
Defined.

(** ** What a built parser holds *)

Lemma insertArgument_required_counted arg st :
  required_counted st -> required_counted (after (insertArgument arg) st).
Proof.
  unfold required_counted, after, insertArgument. cbn [snd required_ arguments_].
  intros H. rewrite List.filter_app, length_app. cbn [List.filter].
  fold (counts_required arg). destruct (counts_required arg); cbn [length].
  - rewrite H. unfold to_size_t. rewrite Zplus_mod_idemp_l. f_equal. lia.
  - rewrite H. f_equal. lia.
Qed.

Lemma insertArgument_slots_initial arg st :
  variables_ st = initial_slot <$> arguments_ st ->
  variables_ (after (insertArgument arg) st)
    = initial_slot <$> arguments_ (after (insertArgument arg) st).
Proof.
  intros H. destruct (insertArgument_fields arg st) as (Ha & Hv & _).
  now rewrite Ha, Hv, fmap_app, H.
Qed.

(** A declaration call returns the object it was given or the one that
    [insertArgument] makes of it, after the setting of [final_name_] for the
    final argument. *)
Lemma declaration_cases (P : ArgumentParser -> Prop) :
  (forall st arg, P st -> P (after (insertArgument arg) st)) ->
  (forall st nm, P st -> P (after (set_final_name nm) st)) ->
  forall st, P st ->
  (forall nm n d req h, P (after (addArgument nm n d req h) st)) /\
  (forall short nm n d req h, P (after (addArgument2 short nm n d req h) st)) /\
  (forall nm n d req h, P (after (addFinalArgument nm n d req h) st)).
Proof.
  intros Hins Hset st HP. unfold after in *. repeat split.
  - intros nm n d req h. unfold addArgument.
    destruct (2 <? size nm)%nat; unfold bind;
      destruct (verify_result nm st) as [-> | [f ->]]; cbv beta iota;
      try exact HP; now apply Hins.
  - intros short nm n d req h. unfold addArgument2, bind.
    destruct (verify_result short st) as [-> | [f ->]]; cbv beta iota; [|exact HP].
    destruct (verify_result nm st) as [-> | [f ->]]; cbv beta iota; [|exact HP].
    now apply Hins.
  - intros nm n d req h. unfold addFinalArgument, bind.
    specialize (Hset st (delimit nm) HP). unfold set_final_name in *. cbn [snd fst] in *.
    now apply Hins.
Qed.

Lemma built_registry_holds (st : ArgumentParser) :
  built st ->
  required_counted st /\ variables_ st = initial_slot <$> arguments_ st.
Proof.
  induction 1 as [|st nm _ IH|st b _ IH|st b _ IH|st nm n d req h _ IH
                 |st short nm n d req h _ IH|st nm n d req h _ IH|st argv _ IH].
  - split; reflexivity.
  - exact IH.
  - exact IH.
  - exact IH.
  - apply (declaration_cases (fun s => required_counted s /\ variables_ s = initial_slot <$> arguments_ s));
      [intros s arg [H1 H2]; split;
         [now apply insertArgument_required_counted|now apply insertArgument_slots_initial]
      |intros s k H; exact H|exact IH].
  - apply (declaration_cases (fun s => required_counted s /\ variables_ s = initial_slot <$> arguments_ s));
      [intros s arg [H1 H2]; split;
         [now apply insertArgument_required_counted|now apply insertArgument_slots_initial]
      |intros s k H; exact H|exact IH].
  - apply (declaration_cases (fun s => required_counted s /\ variables_ s = initial_slot <$> arguments_ s));
      [intros s arg [H1 H2]; split;
         [now apply insertArgument_required_counted|now apply insertArgument_slots_initial]
      |intros s k H; exact H|exact IH].
  - destruct (parse_keeps_slots argv st) as [Hargs Hvars Hreq _ _ _ _].
    destruct IH as [IH1 IH2]. unfold required_counted, after.
    rewrite Hargs, Hvars, Hreq. now split.
Qed.

(** On every parser built without [clear()]: the counter [required_] is the
    number of registered arguments that are required and have no default,
    and every value slot holds what [insertArgument] put there, whatever
    has been parsed since. *)
Theorem built_registry (st : ArgumentParser) :
  built st ->
  required_counted st /\ variables_ st = initial_slot <$> arguments_ st.
Proof. apply built_registry_holds. Qed.

Lemma built_registry_witness :
  required_counted parser_file_v /\
  variables_ parser_file_v = initial_slot <$> arguments_ parser_file_v.
Proof. apply (built_registry parser_file_v). exact parser_file_v_built. Defined.

Lemma built_slot st nm N arg :
  built st -> index_ st !! delimit nm = Some N -> arguments_ st !! Z.to_nat N = Some arg ->
  variables_ st !! Z.to_nat N = Some (initial_slot arg).
Proof.
  intros Hb _ Ha. destruct (built_registry_holds st Hb) as [_ Hv].
  now rewrite Hv, list_lookup_fmap, Ha.
Qed.

Lemma count_built_initial (st : ArgumentParser) (nm : string) (N : Z) (arg : Argument) :
  built st ->
  index_ st !! delimit nm = Some N ->
  arguments_ st !! Z.to_nat N = Some arg ->
  count nm st = (count_initial arg, st).
Proof.
  intros Hb Hi Ha.
  rewrite (count_declared st nm N arg _ Hi Ha (built_slot st nm N arg Hb Hi Ha)).
  unfold count_initial, initial_slot. destruct (nargs arg) as [k|c]; [|reflexivity].
  now destruct (k <=? 1).
Qed.

(** On a parser built without [clear()], [count] of a declared name is
    settled by the declaration, whatever has been parsed: 1 when the arity
    is 0 or 1 and a default was given, 0 when it was not, 0 for a variable
    arity, and [std::bad_cast] for a fixed arity above 1. *)
Theorem count_built (st : ArgumentParser) (nm : string) (N : Z) (arg : Argument) :
  built st ->
  index_ st !! delimit nm = Some N ->
  arguments_ st !! Z.to_nat N = Some arg ->
  count nm st = (count_initial arg, st).
Proof. apply count_built_initial. Qed.

Lemma count_built_witness :
  count "file" (after (parse ["prog"; "-v"; "input.txt"]) parser_file_v)
  = (count_initial argument_file, after (parse ["prog"; "-v"; "input.txt"]) parser_file_v).
Proof.
  apply (count_built (after (parse ["prog"; "-v"; "input.txt"]) parser_file_v) "file" 0
           argument_file).
  - apply built_parse. exact parser_file_v_built.
  - vm_compute. reflexivity.
  - vm_compute. reflexivity.
Defined.

(** On a parser built without [clear()], whatever has been parsed, a
    [retrieve] that returns gives the empty string or the empty list. *)
Theorem retrieve_built_empty (T : ValueType) (st : ArgumentParser) (nm : string) (v : Any) :
  built st ->
  fst (retrieve T nm st) = Ok v ->
  v = AnyString "" \/ v = AnyVector [].
Proof.
  intros Hb. rewrite retrieve_result.
  destruct (index_ st !! delimit nm) as [N|] eqn:Hi; [|discriminate].
  destruct (wf_index st (built_is_well_formed st Hb) _ _ Hi) as [_ [arg [Ha _]]].
  rewrite (count_built_initial st nm N arg Hb Hi Ha). cbn [fst].
  rewrite (built_slot st nm N arg Hb Hi Ha).
  unfold count_initial, initial_slot.
  destruct (nargs arg) as [k|c].
  - destruct (k <=? 1); [|discriminate].
    destruct (empty_string (default_value arg)) eqn:He; [|discriminate].
    apply empty_string_true in He. rewrite He. cbn [Z.b2z negb Z.eqb].
    destruct T; cbn [castTo]; intros [= <-]. now left.
  - cbn [Z.eqb negb]. destruct T; cbn [castTo]; intros [= <-]. now right.
Qed.

Lemma retrieve_built_empty_witness :
  AnyString "" = AnyString "" \/ AnyString "" = AnyVector [].
Proof.
  apply (retrieve_built_empty T_string
           (after (parse ["prog"; "-v"; "input.txt"]) parser_file_v) "file" (AnyString "")).
  - apply built_parse. exact parser_file_v_built.
  - vm_compute. reflexivity.
Defined.

(** ** After clear *)

(** When a final argument has been designated, [clear()] empties the
    registry but keeps the designation, and the next [parse] or [usage()]
    reads [arguments_] beyond its size, whatever the input. *)
Theorem parse_after_clear (st : ArgumentParser) (argv : list string) :
  final_name_ st <> "" ->
  fst (parse argv (after clear st)) = Fail undefined_behaviour /\
  fst (usage (after clear st)) = Fail undefined_behaviour.
Proof.
  intros Hfin. apply empty_string_false in Hfin.
  assert (Hlookup : forall nm,
    lookup_final (after (appName nm) (after clear st))
    = (Fail undefined_behaviour,
       snd (index_at (final_name_ st) (after (appName nm) (after clear st))))).
  { intros nm. unfold lookup_final. unfold bind at 1. unfold this.
    cbn [after clear appName snd final_name_]. rewrite Hfin.
    unfold bind, index_at. cbn [index_]. rewrite lookup_empty. reflexivity. }
  split.
  - destruct (set_app_name_fields argv (after clear st)) as [nm Hs].
    unfold parse. rewrite (bind_ok _ _ _ _ _ Hs).
    now rewrite (bind_fail _ _ _ _ _ (Hlookup nm)).
  - unfold usage. unfold bind at 1. unfold this.
    cbn [after clear snd final_name_ arguments_]. rewrite Hfin.
    unfold bind, index_at. cbn [index_]. rewrite lookup_empty. reflexivity.
Qed.

Lemma parse_after_clear_witness :
  fst (parse ["prog"; "input.txt"] (after clear parser_file_v)) = Fail undefined_behaviour /\
  fst (usage (after clear parser_file_v)) = Fail undefined_behaviour.
Proof.
  apply (parse_after_clear parser_file_v ["prog"; "input.txt"]). discriminate.
Defined.

(** ** parse on any parser *)

(** In every state, whatever the input and however the call ends, [parse]
    leaves the registry, the value slots, the required counter, the final
    designation and the two settings as they were; the index keeps its
    entries and can only gain some. No token of the input is stored. *)
Theorem parse_extends_index_only (st : ArgumentParser) (argv : list string) :
  extends_index st (after (parse argv) st).
Proof. apply parse_keeps_slots. Qed.

(** * The tokens that parse reserves for the final argument *)

(** For the final argument that [parse] works with, the number of the
    specification is the one that the source's expression gives, and no
    other. *)
Lemma nfinal_spec_init (registered : bool) (final : Argument) (n : Z) :
  (registered = false -> final = Argument_default) ->
  constructed_nargs (nargs final) ->
  nfinal_spec registered final n <-> n = nfinal_init final.
Proof.
  intros Hreg Hc. unfold nfinal_init. split.
  - intros Hs. destruct Hs as [Hr|Hq|k Hr Hq Hk|Hr Hq Hk|Hr Hq Hk].
    + now rewrite (Hreg Hr).
    + now rewrite Hq.
    + now rewrite Hq, Hk.
    + now rewrite Hq, Hk.
    + now rewrite Hq, Hk.
  - intros ->. destruct (required final) eqn:Hq; simpl; [|now apply nfinal_not_required].
    destruct registered.
    + destruct (nargs final) as [k|c] eqn:Hk.
      * now apply nfinal_fixed.
      * simpl in Hc. destruct Hc as [-> | ->]; simpl.
        -- now apply nfinal_plus.
        -- now apply nfinal_star.
    + rewrite (Hreg eq_refl) in Hq. discriminate Hq.
Qed.

(** A declaration under other keys leaves the entry of a key and the
    argument it points to where they were. *)
Lemma insertArgument_other_key arg st key i a :
  name arg <> key -> short_name arg <> key ->
  index_ st !! key = Some i -> arguments_ st !! Z.to_nat i = Some a ->
  index_ (after (insertArgument arg) st) !! key = Some i /\
  arguments_ (after (insertArgument arg) st) !! Z.to_nat i = Some a.
Proof.
  intros Hn Hs Hi Ha. destruct (insertArgument_fields arg st) as (Hargs & _ & Hidx).
  rewrite Hargs, Hidx. split; [|now apply lookup_app_l_Some].
  destruct (empty_string (name arg)), (empty_string (short_name arg));
    rewrite ?lookup_insert_ne by assumption; exact Hi.
Qed.

Lemma insertArgument_keeps_final arg st final :
  name arg = "" \/ name arg <> final_name_ st ->
  short_name arg = "" \/ short_name arg <> final_name_ st ->
  final_is st final -> final_is (after (insertArgument arg) st) final.
Proof.
  intros Hn Hs [Hfin|[Hne [i [Hi Ha]]]]; [now left|right].
  split; [exact Hne|]. exists i.
  apply (insertArgument_other_key arg st (final_name_ st) i final); try assumption.
  - destruct Hn as [->|Hn]; [congruence|exact Hn].
  - destruct Hs as [->|Hs]; [congruence|exact Hs].
Qed.

(** The object after a one-name [addArgument]: as before, when [verify]
    fails, or with the argument inserted under its one name. *)
Lemma addArgument_result nm n d req h st :
  after (addArgument nm n d req h) st = st \/
  exists arg, after (addArgument nm n d req h) st = after (insertArgument arg) st /\
              ((name arg = "" /\ short_name arg = nm) \/ (name arg = nm /\ short_name arg = "")).
Proof.
  unfold after, addArgument. destruct (2 <? size nm)%nat; unfold bind;
    destruct (verify_result nm st) as [-> | [f ->]]; cbv beta iota;
    [right|now left|right|now left]; eexists; (split; [reflexivity|]);
    cbn [Argument_new name short_name]; [now right|now left].
Qed.

Lemma addArgument2_result short nm n d req h st :
  after (addArgument2 short nm n d req h) st = st \/
  after (addArgument2 short nm n d req h) st
  = after (insertArgument (Argument_new short nm req n d h)) st.
Proof.
  unfold after, addArgument2, bind.
  destruct (verify_result short st) as [-> | [f ->]]; cbv beta iota; [|now left].
  destruct (verify_result nm st) as [-> | [f ->]]; cbv beta iota; [now right|now left].
Qed.

(** What [declares_final] says of the object: the designation is empty when
    no final argument is registered, and otherwise it is a key that leads to
    the registered argument, which its constructor built. *)
Lemma declares_final_resolves st o :
  declares_final st o ->
  final_is st (final_of o) /\ constructed_nargs (nargs (final_of o)) /\
  (final_registered_by o = false -> final_name_ st = "").
Proof.
  induction 1 as [|st o nm _ IH|st o b _ IH|st o b _ IH|st o argv _ IH
                 |st o nm n d req h _ _ Hnm|st o nm n d req h _ IH Hnm
                 |st o short nm n d req h _ IH Hshort Hnm].
  - repeat split; [now left|simpl; lia].
  - exact IH.
  - exact IH.
  - exact IH.
  - destruct IH as (Hfin & Hc & Hnone).
    destruct (parse_keeps_slots argv st) as [Hargs _ _ Hname _ _ Hidx].
    split; [|split; [exact Hc|intros E; unfold after; rewrite Hname; now apply Hnone]].
    unfold final_is, after. rewrite Hname, Hargs.
    destruct Hfin as [Hfin|[Hne [i [Hi Ha]]]]; [now left|right].
    split; [exact Hne|]. exists i. split; [|exact Ha].
    eapply lookup_weaken; [exact Hi|exact Hidx].
  - cbn [final_of final_registered_by].
    split; [|split; [apply Argument_new_constructed|discriminate]].
    right. assert (Hne : empty_string (delimit nm) = false) by (now destruct nm).
    change (final_name_ (after (addFinalArgument nm n d req h) st)) with (delimit nm).
    split; [now apply empty_string_false|].
    exists (Z.of_nat (length (arguments_ st))).
    unfold after, addFinalArgument, bind, set_final_name, insertArgument.
    cbn [snd index_ arguments_ Argument_new name short_name empty_string].
    rewrite Hne, Nat2Z.id. split; [apply lookup_insert_eq|].
    rewrite lookup_app_r by lia. now rewrite Nat.sub_diag.
  - destruct (addArgument_result nm n d req h st) as [->|(arg & -> & Hnames)]; [exact IH|].
    destruct IH as (Hfin & Hc & Hnone). split; [|split; [exact Hc|exact Hnone]].
    apply insertArgument_keeps_final; [| |exact Hfin].
    + destruct Hnames as [[-> _]|[-> _]]; [now left|now right].
    + destruct Hnames as [[_ ->]|[_ ->]]; [now right|now left].
  - destruct (addArgument2_result short nm n d req h st) as [->| ->]; [exact IH|].
    destruct IH as (Hfin & Hc & Hnone). split; [|split; [exact Hc|exact Hnone]].
    apply insertArgument_keeps_final; [now right|now right|exact Hfin].
Qed.

(** [parse] is its application-name step, the lookup of the final argument
    and then [parse_loops] on the working set of lines 326 to 330. *)
Lemma parse_from_loops argv st :
  parse argv st =
    match lookup_final (after (set_app_name argv) st) with
    | (Ok final, st1) =>
        parse_loops final (nrequired_init final (required_ st1)) (nfinal_init final) argv st1
    | (Fail f, st1) => (Fail f, st1)
    end.
Proof.
  destruct (set_app_name_fields argv st) as [nm Hs].
  unfold after at 1. rewrite Hs. cbn [snd].
  unfold parse. rewrite (bind_ok _ _ _ _ _ Hs). unfold bind at 1.
  destruct (lookup_final (after (appName nm) st)) as [[final|f] st1]; reflexivity.
Qed.

(** On the parsers that [declares_final] describes, the number of the
    specification is defined: it is the one of the source's expression. *)
Lemma nfinal_spec_total st o :
  declares_final st o ->
  nfinal_spec (final_registered_by o) (final_of o) (nfinal_init (final_of o)).
Proof.
  intros Hd. destruct (declares_final_resolves st o Hd) as (_ & Hc & _).
  apply nfinal_spec_init; [now destruct o|exact Hc|reflexivity].
Qed.

(** C7: on a parser built by declarations, [parse] runs its loops with the
    number of reserved trailing tokens that the specification describes: 0
    when no final argument is registered or the registered one is not
    required; otherwise its fixed arity, 1 for the variable arity '+' and 0
    for '*'. *)
Theorem parse_reserves_nfinal (st : ArgumentParser) (o : option Argument)
    (argv : list string) (n : Z) :
  declares_final st o ->
  nfinal_spec (final_registered_by o) (final_of o) n ->
  parse argv st
  = parse_loops (final_of o) (nrequired_init (final_of o) (required_ st)) n argv
      (after (set_app_name argv) st).
Proof.
  intros Hd Hn. destruct (declares_final_resolves st o Hd) as (Hfin & Hc & _).
  apply nfinal_spec_init in Hn; [subst n|now destruct o|exact Hc].
  destruct (set_app_name_fields argv st) as [nm Hs].
  unfold after at 1. rewrite Hs. cbn [snd].
  assert (Hfin0 : final_is (after (appName nm) st) (final_of o)) by exact Hfin.
  unfold parse. rewrite (bind_ok _ _ _ _ _ Hs).
  rewrite (bind_ok _ _ _ _ _ (final_is_lookup _ _ Hfin0)).
  reflexivity.
Qed.

Lemma parse_reserves_nfinal_witness :
  parse ["prog"; "-v"; "input.txt"] parser_file_v
  = parse_loops argument_file (nrequired_init argument_file (required_ parser_file_v)) 1
      ["prog"; "-v"; "input.txt"] (after (set_app_name ["prog"; "-v"; "input.txt"]) parser_file_v).
Proof.
  apply (parse_reserves_nfinal parser_file_v (Some argument_file) ["prog"; "-v"; "input.txt"] 1).
  - change parser_file_v with
      (after (addArgument "-v" (arity 0) "" false "")
         (after (addFinalArgument "file" (arity 1) "" true "") ArgumentParser_new)).
    apply declares_addArgument; [|discriminate].
    apply (declares_addFinalArgument ArgumentParser_new None "file" (arity 1) "" true "");
      [apply declares_new|discriminate].
  - apply nfinal_fixed; reflexivity.
Defined.

(** ** A key that is not required, met first *)

(** When the first processed token is the key of an argument that is not
    required and the counter of required arguments starts above zero,
    [parse] fails with UnexpectedRequiredArgument. *)
Lemma parse_first_key_unexpected st argv final act el i :
  final_is st final ->
  Z.b2z (ignore_first_ st) < Z.of_nat (length argv) - to_ptrdiff_t (nfinal_init final) ->
  argv !! Z.to_nat (Z.b2z (ignore_first_ st)) = Some el ->
  index_ st !! el = Some i ->
  arguments_ st !! Z.to_nat i = Some act ->
  required act = false ->
  0 < nrequired_init final (required_ st) ->
  fails_with (fst (parse argv st)) UnexpectedRequiredArgument.
Proof.
  intros Hfinal Hlt Hel Hi Ha Hreq Hpos.
  destruct (set_app_name_fields argv st) as [nm Hs].
  assert (Hst0 : after (set_app_name argv) st = after (appName nm) st)
    by (unfold after at 1; now rewrite Hs).
  set (st0 := after (appName nm) st) in *.
  assert (Hr0 : final_registered st0) by (now exists final).
  destruct (argumentError_fails UnexpectedRequiredArgument
    ("encountered required argument " +:+ el +:+ " when expecting more required arguments")
    true st0 Hr0) as [f [Hf Hk]].
  rewrite (parse_first_token_fails st argv final el f st0 Hfinal Hlt Hel).
  - exact Hk.
  - rewrite Hst0. unfold parse_token. unfold bind at 1. unfold index_count.
    change (index_ st0) with (index_ st). rewrite Hi. cbn [Z.eqb].
    cbn [active consumed nrequired fixed_ne variable_plus Argument_default nargs negb andb orb
         Z.eqb when].
    unfold bind at 1. unfold ret at 1.
    rewrite (bind_ok _ _ st0 i st0) by (apply index_at_present; exact Hi).
    rewrite (bind_ok _ _ st0 act st0)
      by (unfold arguments_at; change (arguments_ st0) with (arguments_ st); now rewrite Ha).
    rewrite Hreq. apply Z.ltb_lt in Hpos. rewrite Hpos. cbn [negb andb when].
    now rewrite (bind_fail _ _ _ _ _ Hf).
Qed.
